(** * SAMRAI: inter-patch communication layer, shallow embedding

    Embedded sources:
    - [hier/BlockId.cpp], [hier/PeriodicId.cpp]: the reserved identifiers;
    - [algs/TimeRefinementIntegratorConnectorWidthRequestor.cpp]:
      [computeRequiredConnectorWidths];
    - [algs/OuternodeSumTransactionFactory.cpp]: the two [allocate]
      overloads and [preprocessScratchSpace];
    - [pdat/FaceConstantRefine.cpp]: [refine];
    - the main program of the Euler sample application:
      [dumpMatlabData1dPencil] (the pencil box and the name of the dump
      file).

    C++ [int] is a 32-bit two's complement value carried in [Z];
    [std::vector] is a list; a [std::shared_ptr] that may be null is an
    [option]; a failed assertion, [TBOX_ERROR] or C++ exception is an
    error result. *)

From Stdlib Require Import ZArith List Bool Lia Permutation Ascii.
From Stdlib Require Import Floats.SpecFloat.
From stdpp Require Import base list.

Local Open Scope Z_scope.

(** ** tbox: machine integers, build configuration, failures *)

Module Tbox.

Definition int_min : Z := - 2 ^ 31.
Definition int_max : Z := 2 ^ 31 - 1.

Definition in_int (z : Z) : Prop := int_min <= z <= int_max.

(** Two's complement reduction of an arithmetic result to [int]. *)
Definition wrap (z : Z) : Z := (z + 2 ^ 31) mod 2 ^ 32 - 2 ^ 31.

(** The integer types a small identifier class can store its value in;
    the class declarations (the headers) are not part of the sources. *)
Inductive int_type := SignedInt | UnsignedInt.

Definition type_max (ty : int_type) : Z :=
  match ty with
  | SignedInt => 2 ^ 31 - 1
  | UnsignedInt => 2 ^ 32 - 1
  end.

(** Conversion of an [int] value to the storage type (C++ integral
    conversion: unchanged for [int], modulo [2^32] for [unsigned]). *)
Definition convert (ty : int_type) (v : Z) : Z :=
  match ty with
  | SignedInt => wrap v
  | UnsignedInt => v mod 2 ^ 32
  end.

(** Modelled from the spec: [tbox::MathUtilities<int>::getMax()], whose
    definition is not part of the sources, is the maximum representable
    [int]. *)
Definition MathUtilities_int_getMax : Z := int_max.

Definition MathUtilities_int_getMin : Z := int_min.

(** [tbox::Dimension]: the number of spatial directions. *)
Definition Dimension := nat.
Bind Scope nat_scope with Dimension.

Inductive failure :=
| AssertionFailed        (* TBOX_ASSERT *)
| DimensionMismatch      (* the TBOX_ASSERT_OBJDIM_EQUALITY macros *)
| UnsupportedDimension   (* TBOX_ERROR in the operators *)
| LengthError            (* std::length_error *)
| UndefinedBehavior.     (* null dereference, back() of an empty vector *)

Inductive result (A : Type) :=
| Ok (a : A)
| Err (e : failure).
Arguments Ok {A} a.
Arguments Err {A} e.

Definition bind {A B} (m : result A) (k : A -> result B) : result B :=
  match m with
  | Ok a => k a
  | Err e => Err e
  end.

(** Build configuration: the assertion macros expand to checks only in
    debug builds; [HAVE_RAJA] selects the data-parallel kernels. *)
Record Build := {
  debug_check_assertions : bool;
  have_raja : bool
}.

Definition TBOX_ASSERT (cfg : Build) (cond : bool) : result unit :=
  if debug_check_assertions cfg && negb cond then Err AssertionFailed else Ok tt.

Definition TBOX_DIM_ASSERT (cfg : Build) (cond : bool) : result unit :=
  if debug_check_assertions cfg && negb cond then Err DimensionMismatch else Ok tt.

(** Dereference of a pointer that an assertion (when compiled in) has
    already checked. *)
Definition deref {A} (p : option A) : result A :=
  match p with
  | Some a => Ok a
  | None => Err UndefinedBehavior
  end.

(** A sequential loop threading a state through a fallible body. *)
Fixpoint for_each {A S} (body : A -> S -> result S) (l : list A) (s : S) : result S :=
  match l with
  | [] => Ok s
  | a :: l' => bind (body a s) (for_each body l')
  end.

(** IEEE binary64, the C++ [double]: zeros, infinities, finite values
    by sign, mantissa and exponent, and one NaN.  The payload bits of a
    NaN are not part of the model; a statement on bit-identical results
    excludes NaN operands. *)
Definition double := spec_float.
Definition double_zero : double := S754_zero false.
Definition double_add (x y : double) : double := SFadd 53 1024 x y.

(** [std::isnan]. *)
Definition isnan (x : double) : bool :=
  match x with
  | S754_nan => true
  | _ => false
  end.

End Tbox.

Export Tbox.

#[global] Instance result_bind : MBind result := fun A B k m => bind m k.
#[global] Instance result_ret : MRet result := fun A a => Ok a.

(** ** hier: identifiers, vectors, boxes, patches *)

Module BlockId.
(** [BlockId::BlockId(int)] storing its value in a member of type [ty]. *)
Definition make (ty : int_type) (value : Z) : Z := convert ty value.
Definition s_invalid_id (ty : int_type) : Z := make ty MathUtilities_int_getMax.
Definition s_zero_id (ty : int_type) : Z := make ty 0.
End BlockId.

Module PeriodicId.
Definition make (ty : int_type) (value : Z) : Z := convert ty value.
Definition s_invalid_id (ty : int_type) : Z := make ty (-1).
Definition s_zero_id (ty : int_type) : Z := make ty 0.
End PeriodicId.

Module Hier.

Definition IntVector := list Z.
Definition Index := list Z.

(** [IntVector(dim, value)]: every component equal to [value]. *)
Definition IntVector_uniform (dim : Dimension) (value : Z) : IntVector :=
  replicate dim value.

Definition IntVector_getZero (dim : Dimension) : IntVector :=
  IntVector_uniform dim 0.

Definition IntVector_getDim (v : IntVector) : Dimension := length v.

(** [v[i]] and [v(i)] on a vector of [int]s, for a direction of the
    vector's dimension. *)
Definition component (v : list Z) (i : nat) : Z := default 0 (v !! i).

Record PatchHierarchy := {
  hierarchy_dim : Dimension;            (* getDim() *)
  hierarchy_max_levels : Z              (* getMaxNumberOfLevels() *)
}.

(** [std::vector::resize(n, value)] with [n] given as an [int]
    expression: the conversion to [size_t] of a negative count exceeds
    [max_size()] and throws; otherwise the first [n] elements are kept
    and only the missing ones are copies of [value]. *)
Definition vector_resize {A} (n : Z) (value : A) (v : list A) : result (list A) :=
  if n <? 0 then Err LengthError
  else Ok (take (Z.to_nat n) v ++ replicate (Z.to_nat n - length v)%nat value).

(** [std::vector::back()]. *)
Definition vector_back {A} (v : list A) : result A := deref (last v).

(** [v[i]] for an index known to be below [size()]. *)
Definition vector_at {A} (v : list A) (i : nat) : result A := deref (v !! i).

(** A box of index space: lower and upper corner, and the local id of
    the box on its level (negative while unassigned). *)
Record Box := {
  box_dim : Dimension;
  box_lo : Index;
  box_hi : Index;
  box_local_id : Z
}.

(** Modelled from the spec: the constructor [hier::Box(dim)] is declared
    in Box.h, which is not part of the sources; it builds the empty box
    of the dimension, not yet assigned to a level. *)
Definition Box_of_dim (dim : Dimension) : Box :=
  {| box_dim := dim;
     box_lo := replicate dim MathUtilities_int_getMax;
     box_hi := replicate dim MathUtilities_int_getMin;
     box_local_id := -1 |}.

Definition lower (b : Box) (i : nat) : Z := component (box_lo b) i.
Definition upper (b : Box) (i : nat) : Z := component (box_hi b) i.
Definition getLocalId (b : Box) : Z := box_local_id b.

Definition setLower (i : nat) (v : Z) (b : Box) : Box :=
  {| box_dim := box_dim b; box_lo := <[i := v]> (box_lo b);
     box_hi := box_hi b; box_local_id := box_local_id b |}.

Definition setUpper (i : nat) (v : Z) (b : Box) : Box :=
  {| box_dim := box_dim b; box_lo := box_lo b;
     box_hi := <[i := v]> (box_hi b); box_local_id := box_local_id b |}.

(** Modelled from the spec: [Box::growUpper(direction, ghosts)], declared
    in Box.h, moves the upper corner by [ghosts] cells in one direction
    (the extra layer of faces along the face-normal axis). *)
Definition growUpper (direction : nat) (ghosts : Z) (b : Box) : Box :=
  setUpper direction (wrap (upper b direction + ghosts)) b.

(** The overlap kinds: the destination boxes of a face overlap are kept
    per face-normal axis. *)
Inductive BoxOverlap :=
| FaceOverlapOf (dst_boxes : list (list Box))
| OtherOverlap.

(** [CPP_CAST<const FaceOverlap*>]: null for another kind of overlap. *)
Definition as_FaceOverlap (o : BoxOverlap) : option (list (list Box)) :=
  match o with
  | FaceOverlapOf bs => Some bs
  | OtherOverlap => None
  end.

Definition getDestinationBoxContainer (bs : list (list Box)) (axis : nat) : list Box :=
  default [] (bs !! axis).

(** [hier::ComponentSelector]: one flag per patch data index. *)
Record ComponentSelector := { selector_bits : list bool }.

Definition getSize (c : ComponentSelector) : nat := length (selector_bits c).
Definition isSet (c : ComponentSelector) (n : nat) : bool :=
  default false (selector_bits c !! n).

End Hier.

Export Hier.

(** ** algs: the connector width requestor of the time refinement integrator *)

Module TimeRefinementIntegratorConnectorWidthRequestor.

Record t := { d_tag_buffer : list Z }.

(** The default constructor leaves the tag buffer empty. *)
Definition create : t := {| d_tag_buffer := [] |}.

Definition setTagBuffer (this : t) (tag_buffer : list Z) : t :=
  {| d_tag_buffer := tag_buffer |}.

(** One iteration of the loop over levels. *)
Definition push_level (this : t) (dim : Dimension) (ln : nat)
    (self_connector_widths : list IntVector) : result (list IntVector) :=
  value ← (if (ln <? length (d_tag_buffer this))%nat
           then vector_at (d_tag_buffer this) ln
           else vector_back (d_tag_buffer this));
  Ok (self_connector_widths ++ [IntVector_uniform dim value]).

(** The two output vectors are passed by reference; the incoming contents
    are the first two arguments, the outgoing contents the result.  The
    loop bound [static_cast<size_t>(max_levels)] is reached only after
    the resize has accepted [max_levels - 1 >= 0]. *)
Definition computeRequiredConnectorWidths (this : t)
    (self_connector_widths fine_connector_widths : list IntVector)
    (patch_hierarchy : PatchHierarchy)
    : result (list IntVector * list IntVector) :=
  let dim := hierarchy_dim patch_hierarchy in
  let max_levels := hierarchy_max_levels patch_hierarchy in
  fine ← vector_resize (wrap (max_levels - 1)) (IntVector_getZero dim)
           fine_connector_widths;
  self ← for_each (push_level this dim) (seq 0 (Z.to_nat max_levels)) [];
  Ok (self, fine).

End TimeRefinementIntegratorConnectorWidthRequestor.

(** ** pdat: patch data *)

Module Pdat.

(** Face-centred data: one array per face-normal axis and depth
    component, addressed by an index vector whose first component runs
    along the face-normal axis (the array views of [getView] and
    [getConstView]).  A view holds a value at every index vector: the
    operator reads the ghost box only to pass extents to the scalar
    kernels, and an access outside the allocated faces, undefined in the
    code, is not told apart here.  The statements on [refine] are
    therefore about calls that return, and their sample data keep every
    box inside the ghost boxes. *)
Record FaceData (T : Type) := {
  face_depth : Z;                           (* getDepth() *)
  face_ghost_box : Box;                     (* getGhostBox() *)
  face_array : nat -> nat -> Index -> T     (* axis, depth, index *)
}.
Arguments face_depth {T} _.
Arguments face_ghost_box {T} _.
Arguments face_array {T} _ _ _ _.

(** Outernode data: the node values on the boundary of the patch box,
    all sides and depth components in storage order. *)
Record OuternodeData (T : Type) := { outernode_values : list T }.
Arguments outernode_values {T} _.

(** Modelled from the spec: [OuternodeData<T>::fillAll(value)], declared
    in OuternodeData.h, sets every stored value of the field to [value]. *)
Definition fillAll {T} (value : T) (o : OuternodeData T) : OuternodeData T :=
  {| outernode_values := replicate (length (outernode_values o)) value |}.

Inductive PatchData (T : Type) :=
| FaceDataOf (f : FaceData T)
| OuternodeDataOf (o : OuternodeData T)
| OtherPatchData.
Arguments FaceDataOf {T} f.
Arguments OuternodeDataOf {T} o.
Arguments OtherPatchData {T}.

(** [SAMRAI_SHARED_PTR_CAST]: null when the pointer is null or the data
    is of another class. *)
Definition as_FaceData {T} (p : option (PatchData T)) : option (FaceData T) :=
  match p with
  | Some (FaceDataOf f) => Some f
  | _ => None
  end.

Definition as_OuternodeData {T} (p : option (PatchData T)) : option (OuternodeData T) :=
  match p with
  | Some (OuternodeDataOf o) => Some o
  | _ => None
  end.

(** A patch: its dimension and its vector of patch data pointers. *)
Record Patch (T : Type) := {
  patch_dim : Dimension;
  patch_data : list (option (PatchData T))
}.
Arguments patch_dim {T} _.
Arguments patch_data {T} _.

(** [Patch::getPatchData(id)]; a slot outside the vector holds no data. *)
Definition getPatchData {T} (p : Patch T) (id : nat) : option (PatchData T) :=
  mjoin (patch_data p !! id).

(** Writing through the shared pointer obtained from slot [id]. *)
Definition setPatchData {T} (p : Patch T) (id : nat) (d : PatchData T) : Patch T :=
  {| patch_dim := patch_dim p; patch_data := <[id := Some d]> (patch_data p) |}.

Record PatchLevel := {
  level_dim : Dimension;
  level_patches : list (Patch double)
}.

End Pdat.

Export Pdat.

(** ** algs: the factory of outernode sum transactions *)

Module OuternodeSumTransactionFactory.

(** The transaction object: the seven constructor arguments.  The refine
    data are passed as a pointer, kept as its address. *)
Record OuternodeSumTransaction := {
  d_dst_level : option PatchLevel;
  d_src_level : option PatchLevel;
  d_overlap : option BoxOverlap;
  d_dst_node : Box;
  d_src_node : Box;
  d_refine_data : Z;
  d_item_id : Z
}.

(** Modelled from the spec: the constructor of [OuternodeSumTransaction],
    which [std::make_shared] calls, is not part of the sources.  By the
    spec a transaction references the destination level, the source
    level, the overlap, the two boxes, the variable registration and the
    item index; the object built holds these seven arguments.
    Assertions the constructor may make on its own are not modelled. *)
Definition make_shared_OuternodeSumTransaction
    (dst_level src_level : option PatchLevel) (overlap : option BoxOverlap)
    (dst_node src_node : Box) (refine_data : Z) (item_id : Z)
    : result OuternodeSumTransaction :=
  Ok {| d_dst_level := dst_level; d_src_level := src_level;
        d_overlap := overlap; d_dst_node := dst_node; d_src_node := src_node;
        d_refine_data := refine_data; d_item_id := item_id |}.

(** [TBOX_ASSERT_OBJDIM_EQUALITY4] on the two levels and the two boxes;
    the levels are dereferenced only where the macro expands to a check,
    after the null assertions. *)
Definition assert_objdim_equality4 (cfg : Build)
    (dst_level src_level : option PatchLevel) (dst_node src_node : Box) : result unit :=
  match dst_level, src_level with
  | Some dl, Some sl =>
      TBOX_DIM_ASSERT cfg
        (bool_decide (level_dim dl = level_dim sl)
         && bool_decide (level_dim dl = box_dim dst_node)
         && bool_decide (level_dim dl = box_dim src_node))
  | _, _ => Ok tt
  end.

Definition check_arguments (cfg : Build)
    (dst_level src_level : option PatchLevel) (overlap : option BoxOverlap)
    (dst_node src_node : Box) (refine_data : Z) : result unit :=
  TBOX_ASSERT cfg (bool_decide (is_Some dst_level));;
  TBOX_ASSERT cfg (bool_decide (is_Some src_level));;
  TBOX_ASSERT cfg (bool_decide (is_Some overlap));;
  TBOX_ASSERT cfg (0 <=? getLocalId dst_node);;
  TBOX_ASSERT cfg (0 <=? getLocalId src_node);;
  TBOX_ASSERT cfg (negb (refine_data =? 0));;
  assert_objdim_equality4 cfg dst_level src_level dst_node src_node.

(** The nine-argument overload; [box] and [use_time_interpolation] are
    unused ([NULL_USE]). *)
Definition allocate9 (cfg : Build)
    (dst_level src_level : option PatchLevel) (overlap : option BoxOverlap)
    (dst_node src_node : Box) (refine_data : Z) (item_id : Z)
    (box : Box) (use_time_interpolation : bool) : result OuternodeSumTransaction :=
  check_arguments cfg dst_level src_level overlap dst_node src_node refine_data;;
  make_shared_OuternodeSumTransaction dst_level src_level overlap dst_node src_node
    refine_data item_id.

(** The seven-argument overload (six data arguments and the item id):
    the same assertions, then the nine-argument overload with
    [hier::Box(dst_level->getDim())] and [false]. *)
Definition allocate (cfg : Build)
    (dst_level src_level : option PatchLevel) (overlap : option BoxOverlap)
    (dst_node src_node : Box) (refine_data : Z) (item_id : Z)
    : result OuternodeSumTransaction :=
  check_arguments cfg dst_level src_level overlap dst_node src_node refine_data;;
  dl ← deref dst_level;
  allocate9 cfg dst_level src_level overlap dst_node src_node refine_data item_id
    (Box_of_dim (level_dim dl)) false.

(** The body of the loop over components for one patch. *)
Definition preprocess_component (cfg : Build) (preprocess_vector : ComponentSelector)
    (n : nat) (patch : Patch double) : result (Patch double) :=
  if isSet preprocess_vector n then
    let onode_data := as_OuternodeData (getPatchData patch n) in
    TBOX_ASSERT cfg (bool_decide (is_Some onode_data));;
    o ← deref onode_data;
    Ok (setPatchData patch n (OuternodeDataOf (fillAll double_zero o)))
  else Ok patch.

Definition preprocess_patch (cfg : Build) (preprocess_vector : ComponentSelector)
    (patch : Patch double) : result (Patch double) :=
  let ncomponents := getSize preprocess_vector in
  for_each (preprocess_component cfg preprocess_vector) (seq 0 ncomponents) patch.

(** The loop over the patches of the level. *)
Fixpoint preprocess_patches (cfg : Build) (preprocess_vector : ComponentSelector)
    (patches : list (Patch double)) : result (list (Patch double)) :=
  match patches with
  | [] => Ok []
  | patch :: rest =>
      patch' ← preprocess_patch cfg preprocess_vector patch;
      rest' ← preprocess_patches cfg preprocess_vector rest;
      Ok (patch' :: rest')
  end.

Definition preprocessScratchSpace (cfg : Build) (level : option PatchLevel)
    (fill_time : double) (preprocess_vector : ComponentSelector) : result PatchLevel :=
  TBOX_ASSERT cfg (bool_decide (is_Some level));;
  lv ← deref level;
  patches ← preprocess_patches cfg preprocess_vector (level_patches lv);
  Ok {| level_dim := level_dim lv; level_patches := patches |}.

End OuternodeSumTransactionFactory.

(** ** pdat: the constant refine operator for face-centred data *)

Module FaceConstantRefine.

(** An array view: a value at every index vector. *)
Definition array (T : Type) := Index -> T.

(** [a(idx) = v]. *)
Definition array_set {T} (a : array T) (idx : Index) (v : T) : array T :=
  fun i => if decide (i = idx) then v else a i.

(** The index arithmetic of the kernels,
    [(k < 0) ? (k + 1) / r - 1 : k / r], on [int] with the truncating
    division of C++.  The division of C++ is undefined for [r = 0]; the
    function is used for ratios without a zero component, and the
    statements on it carry that condition. *)
Definition coarsen (k r : Z) : Z :=
  if k <? 0 then wrap (wrap (Z.quot (wrap (k + 1)) r) - 1) else wrap (Z.quot k r).

(** The cells of the box with corners [lo] and [hi], first direction
    outermost. *)
Fixpoint zrange_from (lo : Z) (n : nat) : list Z :=
  match n with
  | O => []
  | S n' => lo :: zrange_from (lo + 1) n'
  end.

Definition zrange (lo hi : Z) : list Z := zrange_from lo (Z.to_nat (hi - lo + 1)).

Fixpoint box_points (lo hi : Index) : list Index :=
  match lo, hi with
  | l :: lo', h :: hi' =>
      x ← zrange l h; (fun rest => x :: rest) <$> box_points lo' hi'
  | _, _ => [[]]
  end.

(** Modelled from the spec: [hier::parallel_for_all(box, body)] is
    declared in ForAll.h, which is not part of the sources; it runs the
    body once for every cell of the box, with no ordering guarantee
    between the cells.  The execution order chosen by the back end is the
    parameter [schedule]. *)
Definition parallel_for_all {S} (schedule : list Index -> list Index)
    (box : Box) (body : Index -> S -> S) (s : S) : S :=
  fold_left (fun acc idx => body idx acc)
    (schedule (box_points (box_lo box) (box_hi box))) s.

(** The body of the 2D kernel: [fine_array(j, k) = coarse_array(ic0, ic1)]. *)
Definition refine_body_2d {T} (r0 r1 : Z) (coarse_array : array T)
    (idx : Index) (fine_array : array T) : array T :=
  match idx with
  | [j; k] =>
      let ic1 := coarsen k r1 in
      let ic0 := coarsen j r0 in
      array_set fine_array [j; k] (coarse_array [ic0; ic1])
  | _ => fine_array
  end.

(** The body of the 3D kernel:
    [fine_array(i, j, k) = coarse_array(ic0, ic1, ic2)]. *)
Definition refine_body_3d {T} (r0 r1 r2 : Z) (coarse_array : array T)
    (idx : Index) (fine_array : array T) : array T :=
  match idx with
  | [i; j; k] =>
      let ic0 := coarsen i r0 in
      let ic1 := coarsen j r1 in
      let ic2 := coarsen k r2 in
      array_set fine_array [i; j; k] (coarse_array [ic0; ic1; ic2])
  | _ => fine_array
  end.

(** The box of cells rebuilt from a face box of the overlap: component
    [i] of the face box is direction [(axis + i) % dim], and the extra
    layer of faces along [axis] is removed. *)
Definition fine_box_of (dim : Dimension) (axis : nat) (face_box : Box) : Box :=
  let fine_box :=
    fold_left
      (fun fb i =>
         setUpper ((axis + i) mod dim)%nat (upper face_box i)
           (setLower ((axis + i) mod dim)%nat (lower face_box i) fb))
      (seq 0 dim) (Box_of_dim dim) in
  setUpper axis (wrap (upper fine_box axis - 1)) fine_box.

(** [fine_box_plus] of the 2D kernel. *)
Definition fine_box_plus_2d (axis : nat) (fine_box : Box) : Box :=
  let fine_box_plus := fine_box in
  let fine_box_plus :=
    if (axis =? 1)%nat then
      setUpper 1 (upper fine_box 0)
        (setUpper 0 (upper fine_box 1)
           (setLower 1 (lower fine_box 0)
              (setLower 0 (lower fine_box 1) fine_box_plus)))
    else fine_box_plus in
  growUpper 0 1 fine_box_plus.

(** [fine_box_plus] of the 3D kernel. *)
Definition fine_box_plus_3d (axis : nat) (fine_box : Box) : Box :=
  let fine_box_plus := fine_box in
  let fine_box_plus :=
    if (axis =? 1)%nat then
      setUpper 2 (upper fine_box 0)
        (setUpper 1 (upper fine_box 2)
           (setUpper 0 (upper fine_box 1)
              (setLower 2 (lower fine_box 0)
                 (setLower 1 (lower fine_box 2)
                    (setLower 0 (lower fine_box 1) fine_box_plus)))))
    else if (axis =? 2)%nat then
      setUpper 2 (upper fine_box 1)
        (setUpper 1 (upper fine_box 0)
           (setUpper 0 (upper fine_box 2)
              (setLower 2 (lower fine_box 1)
                 (setLower 1 (lower fine_box 0)
                    (setLower 0 (lower fine_box 2) fine_box_plus)))))
    else fine_box_plus in
  growUpper 0 1 fine_box_plus.

(** The faces a scalar kernel for [axis] visits, given the cell box
    [ifirstf .. ilastf]: face-normal direction first, one more layer of
    faces along it. *)
Definition face_box_of (dim : Dimension) (axis : nat) (fine_box : Box) : Box :=
  growUpper 0 1
    {| box_dim := dim;
       box_lo := (fun i => lower fine_box ((axis + i) mod dim)%nat) <$> seq 0 dim;
       box_hi := (fun i => upper fine_box ((axis + i) mod dim)%nat) <$> seq 0 dim;
       box_local_id := box_local_id fine_box |}.

(** The coarse index vector the lambdas of the data-parallel kernels
    compute: the components of the index vector the array is addressed
    with are divided by [ratio[0]], [ratio[1]] (and [ratio[2]]), in that
    order, on every axis. *)
Definition coarsen_vector (ratio : IntVector) (idx : Index) : Index :=
  imap (fun i x => coarsen x (component ratio i)) idx.

(** The coarse index vector with the ratio taken per direction: on the
    array of [axis], component [i] of the index vector runs along
    direction [(axis + i) % dim] and is divided by the ratio of that
    direction. *)
Definition coarsen_face (dim : Dimension) (ratio : IntVector) (axis : nat)
    (idx : Index) : Index :=
  imap (fun i x => coarsen x (component ratio ((axis + i) mod dim)%nat)) idx.

(** Modelled from the spec: the scalar kernels ([Call1dFortranFace],
    [Call2dFortranFace_d0], ..., [Call3dFortranFace_d2]) are Fortran
    routines that are not part of the sources.  The spec makes the scalar
    path a sequential loop over the destination faces, specialised per
    face-normal axis by a permutation of the coordinates, in which every
    fine value is the coarse value at [floor(i / r)]: the index along
    each direction divided by the ratio of that direction
    ([index >= 0 ? index/ratio : (index+1)/ratio - 1]).  The coarse box
    and the ghost boxes passed at the call sites are array extents
    only. *)
Definition CallFortranFace {T} (dim : Dimension) (axis : nat) (fine_box : Box)
    (ratio : IntVector) (coarse_array fine_array : array T) : array T :=
  fold_left
    (fun acc idx =>
       array_set acc idx (coarse_array (coarsen_face dim ratio axis idx)))
    (box_points (box_lo (face_box_of dim axis fine_box))
                (box_hi (face_box_of dim axis fine_box)))
    fine_array.

Section Refine.
Context {T : Type}.
Variable cfg : Build.
Variable schedule : list Index -> list Index.

(** The arrays of a face data object during the operator: axis and
    depth select the view. *)
Definition arrays := nat -> nat -> Index -> T.

Definition view (a : arrays) (axis d : nat) : array T := a axis d.

Definition set_view (a : arrays) (axis d : nat) (v : array T) : arrays :=
  fun axis' d' =>
    if decide (axis' = axis /\ d' = d) then v else a axis' d'.

(** The dispatch on the dimension, for one destination box and one
    depth component. *)
Definition refine_depth (dim : Dimension) (cdata : FaceData T)
    (ratio : IntVector) (axis : nat) (fine_box : Box)
    (d : nat) (fdata : arrays) : result arrays :=
  let coarse_array := view (face_array cdata) axis d in
  let fine_array := view fdata axis d in
  if decide (dim = 1%nat) then
    Ok (set_view fdata axis d
          (CallFortranFace dim axis fine_box ratio coarse_array fine_array))
  else if decide (dim = 2%nat) then
    if have_raja cfg then
      let fine_box_plus := fine_box_plus_2d axis fine_box in
      let r0 := component ratio 0 in
      let r1 := component ratio 1 in
      Ok (set_view fdata axis d
            (parallel_for_all schedule fine_box_plus
               (refine_body_2d r0 r1 coarse_array) fine_array))
    else
      Ok (set_view fdata axis d
            (CallFortranFace dim axis fine_box ratio coarse_array fine_array))
  else if decide (dim = 3%nat) then
    if have_raja cfg then
      let fine_box_plus := fine_box_plus_3d axis fine_box in
      let r0 := component ratio 0 in
      let r1 := component ratio 1 in
      let r2 := component ratio 2 in
      Ok (set_view fdata axis d
            (parallel_for_all schedule fine_box_plus
               (refine_body_3d r0 r1 r2 coarse_array) fine_array))
    else
      Ok (set_view fdata axis d
            (CallFortranFace dim axis fine_box ratio coarse_array fine_array))
  else Err UnsupportedDimension.

(** The body of the loop over the destination boxes of one axis. *)
Definition refine_box (dim : Dimension) (cdata : FaceData T) (depth : Z)
    (ratio : IntVector) (axis : nat) (face_box : Box)
    (fdata : arrays) : result arrays :=
  TBOX_DIM_ASSERT cfg (bool_decide (dim = box_dim face_box));;
  let fine_box := fine_box_of dim axis face_box in
  for_each (refine_depth dim cdata ratio axis fine_box)
    (seq 0 (Z.to_nat depth)) fdata.

Definition refine_axis (dim : Dimension) (cdata : FaceData T) (depth : Z)
    (ratio : IntVector) (t_overlap : list (list Box))
    (axis : nat) (fdata : arrays) : result arrays :=
  let boxes := getDestinationBoxContainer t_overlap axis in
  for_each (refine_box dim cdata depth ratio axis) boxes fdata.

(** [refine]: the fine patch after the call.  The fine and the coarse
    patch are distinct objects (patches of two levels). *)
Definition refine (fine coarse : Patch T) (dst_component src_component : nat)
    (fine_overlap : BoxOverlap) (ratio : IntVector) : result (Patch T) :=
  let dim := patch_dim fine in
  let cdata := as_FaceData (getPatchData coarse src_component) in
  let fdata := as_FaceData (getPatchData fine dst_component) in
  let t_overlap := as_FaceOverlap fine_overlap in
  TBOX_ASSERT cfg (bool_decide (is_Some t_overlap));;
  TBOX_ASSERT cfg (bool_decide (is_Some cdata));;
  TBOX_ASSERT cfg (bool_decide (is_Some fdata));;
  TBOX_ASSERT cfg
    (match cdata, fdata with
     | Some c, Some f => face_depth c =? face_depth f
     | _, _ => true
     end);;
  TBOX_DIM_ASSERT cfg
    (bool_decide (patch_dim fine = patch_dim coarse)
     && bool_decide (patch_dim fine = IntVector_getDim ratio));;
  c ← deref cdata;
  f ← deref fdata;
  o ← deref t_overlap;
  a ← for_each (refine_axis dim c (face_depth f) ratio o) (seq 0 dim) (face_array f);
  Ok (setPatchData fine dst_component
        (FaceDataOf {| face_depth := face_depth f;
                       face_ghost_box := face_ghost_box f;
                       face_array := a |})).

End Refine.

End FaceConstantRefine.

(** ** Sum semantics of a communication round *)

Module SumRound.

(** Modelled from the spec: the transaction class
    [OuternodeSumTransaction], which packs and unpacks the data, is not
    part of the sources.  By the spec, each transaction executed after
    the zero fill adds its contribution to the destination value; the
    values are [double]s (the factory fills [OuternodeData<double>]). *)
Definition execute_transaction (destination contribution : double) : double :=
  double_add destination contribution.

(** A round on one shared boundary value: zero fill, then the
    transactions in their execution order. *)
Definition run_round (contributions : list double) : double :=
  fold_left execute_transaction contributions double_zero.

End SumRound.

(** ** The Euler sample application: the pencil dump *)

Module EulerMain.

(** [v[i] = x] on a [std::vector<int>]; an index outside the vector is
    undefined behaviour. *)
Definition vector_set (v : list Z) (i : nat) (x : Z) : result (list Z) :=
  if (i <? length v)%nat then Ok (<[i := x]> v) else Err UndefinedBehavior.

(** One iteration of a loop over the directions that skips the pencil
    direction and counts the others in [indx]:
    [if (id != pencil_direction) { body; ++indx; }]. *)
Definition other_direction {St} (pencil_direction : nat)
    (body : nat -> nat -> St -> result St) (id : nat) (st : St * nat)
    : result (St * nat) :=
  if decide (id = pencil_direction) then Ok st
  else s ← body st.2 id st.1; Ok (s, S st.2).

(** The pencil box of [dumpMatlabData1dPencil]: the bounding box of the
    domain, reduced in more than one dimension to one index in each
    direction other than [pencil_direction]. *)
Definition pencil_box_of (dim : Dimension) (bounding_box : Box)
    (pencil_direction : nat) (default_pencil : bool) (pencil_index : list Z)
    : result Box :=
  let pencil_box := bounding_box in
  if (1 <? dim)%nat then
    let tmp := replicate (dim - 1) 0 in
    tmp ← for_each (fun id tmp => x ← vector_at pencil_index id; vector_set tmp id x)
            (seq 0 (dim - 1)) tmp;
    tmp ← (if default_pencil then
             st ← for_each
                    (other_direction pencil_direction
                       (fun indx id tmp => vector_set tmp indx (lower bounding_box id)))
                    (seq 0 dim) (tmp, 0%nat);
             Ok st.1
           else Ok tmp);
    st ← for_each
           (other_direction pencil_direction
              (fun indx id pencil_box =>
                 x ← vector_at tmp indx;
                 Ok (setUpper id x (setLower id x pencil_box))))
           (seq 0 dim) (pencil_box, 0%nat);
    Ok st.1
  else Ok pencil_box.

(** Decimal digits of a non-negative [int], most significant first. *)
Definition digit_char (d : Z) : ascii := ascii_of_nat (48 + Z.to_nat d).

Fixpoint decimal_digits (fuel : nat) (n : Z) (acc : list ascii) : list ascii :=
  match fuel with
  | O => acc
  | S fuel' =>
      let acc' := digit_char (n mod 10) :: acc in
      if n / 10 =? 0 then acc' else decimal_digits fuel' (n / 10) acc'
  end.

Definition decimal (n : Z) : list ascii := decimal_digits 10 n [].

(** The conversion [%0<width>d] of the C library. *)
Definition format_d (width : nat) (n : Z) : list ascii :=
  if n <? 0 then
    "-"%char :: replicate (width - 1 - length (decimal (- n))) "0"%char
             ++ decimal (- n)
  else replicate (width - length (decimal n)) "0"%char ++ decimal n.

(** [snprintf(buffer, size, ...)]: at most [size - 1] characters of the
    formatted text are stored. *)
Definition snprintf (size : nat) (formatted : list ascii) : list ascii :=
  take (size - 1) formatted.

(** [dump_filename]: the file name, below the directory when one is
    given. *)
Definition dump_filename (dirname filename : list ascii) : list ascii :=
  match dirname with
  | [] => filename
  | _ :: _ => dirname ++ ["/"%char] ++ filename
  end.

(** The text formatted for a parallel and for a serial run,
    ["%s.%04d.dat.%05d"] and ["%s_%04d.dat"]. *)
Definition parallel_name (name : list ascii) (ext rank : Z) : list ascii :=
  name ++ ["."%char] ++ format_d 4 ext
       ++ ["."; "d"; "a"; "t"; "."]%char ++ format_d 5 rank.

Definition serial_name (name : list ascii) (ext : Z) : list ascii :=
  name ++ ["_"%char] ++ format_d 4 ext ++ ["."; "d"; "a"; "t"]%char.

(** The name of the file [dumpMatlabData1dPencil] opens: the contents of
    the buffer of [dump_filename.length() + 16] characters. *)
Definition dump_file_name (mpi_size rank : Z) (dirname filename : list ascii)
    (ext : Z) : list ascii :=
  let name := dump_filename dirname filename in
  let size := (length name + 16)%nat in
  if 1 <? mpi_size then snprintf size (parallel_name name ext rank)
  else snprintf size (serial_name name ext).

End EulerMain.

(** * Statements of the specification *)

Module Spec.

(** The claim of the specification on the reserved identifiers, for the
    integer types that store the two values. *)
Definition sentinels_are_maxima (block_type periodic_type : int_type) : Prop :=
  BlockId.s_invalid_id block_type = type_max block_type
  /\ PeriodicId.s_invalid_id periodic_type = type_max periodic_type
  /\ BlockId.s_zero_id block_type = 0
  /\ PeriodicId.s_zero_id periodic_type = 0.

(** The width the specification asks for at level [ln]: the entry of the
    tag buffer when there is one, the last supplied entry otherwise. *)
Definition requested_width (tag_buffer : list Z) (ln : nat) : option Z :=
  if decide (ln < length tag_buffer)%nat then tag_buffer !! ln else last tag_buffer.

(** The operands of [allocate] that carry a dimension all share it. *)
Definition allocate_dimensions_agree (dst_level src_level : PatchLevel)
    (dst_node src_node : Box) : Prop :=
  level_dim dst_level = level_dim src_level
  /\ level_dim dst_level = box_dim dst_node
  /\ level_dim dst_level = box_dim src_node.

(** The operands of [refine] that carry a dimension all share it. *)
Definition refine_dimensions_agree {T} (fine coarse : Patch T) (ratio : IntVector) : Prop :=
  patch_dim fine = patch_dim coarse /\ patch_dim fine = IntVector_getDim ratio.

(** Every value of an outernode field is 0.0. *)
Definition all_zero (o : OuternodeData double) : Prop :=
  Forall (fun v => v = double_zero) (outernode_values o).

(** What the loop over the components leaves alone on a patch. *)
Definition same_unselected (sel : ComponentSelector) (p p' : Patch double) : Prop :=
  patch_dim p' = patch_dim p
  /\ length (patch_data p') = length (patch_data p)
  /\ forall n, isSet sel n = false -> patch_data p' !! n = patch_data p !! n.

(** Component [n] of the patch is an outernode field of zeros. *)
Definition zero_component (n : nat) (p : Patch double) : Prop :=
  exists o, getPatchData p n = Some (OuternodeDataOf o) /\ all_zero o.

(** The index formula in the words of the specification,
    [index >= 0 ? index/ratio : (index+1)/ratio - 1], with the division of
    C++ (truncation toward zero). *)
Definition floor_formula (index ratio : Z) : Z :=
  if 0 <=? index then Z.quot index ratio else Z.quot (index + 1) ratio - 1.

(** [floor(i / r)] per axis, division rounding toward negative
    infinity: component [k] of a face index of the array of [axis] runs
    along direction [(axis + k) % dim] and is divided by the ratio of
    that direction. *)
Definition floor_index (dim : Dimension) (ratio : IntVector) (axis : nat)
    (idx : Index) : Index :=
  imap (fun k x => x `div` component ratio ((axis + k) mod dim)%nat) idx.

(** The ratio is the same in every direction of the dimension. *)
Definition ratio_uniform (dim : Dimension) (ratio : IntVector) : Prop :=
  forall i, (i < dim)%nat -> component ratio i = component ratio 0.

(** A box of the dimension whose corners are vectors of [int]s. *)
Definition box_wf (dim : Dimension) (b : Box) : Prop :=
  length (box_lo b) = dim /\ length (box_hi b) = dim
  /\ Forall in_int (box_lo b) /\ Forall in_int (box_hi b).

(** A refinement ratio: positive in each direction of the dimension. *)
Definition ratio_wf (dim : Dimension) (ratio : IntVector) : Prop :=
  forall i, (i < dim)%nat -> 1 <= component ratio i <= int_max.

(** The faces one destination box of the overlap stands for, on the axis
    it belongs to: the index vectors the kernels visit for it. *)
Definition destination_faces (dim : Dimension) (axis : nat) (face_box : Box) : list Index :=
  let visited :=
    FaceConstantRefine.face_box_of dim axis
      (FaceConstantRefine.fine_box_of dim axis face_box) in
  FaceConstantRefine.box_points (box_lo visited) (box_hi visited).

(** The coarse index the operator computes for the fine face [idx] of
    the array for [axis], on the path the build selects: the lambdas of
    the data-parallel kernels in two and three dimensions of a build with
    [HAVE_RAJA], the scalar kernels otherwise. *)
Definition source_index (cfg : Build) (dim : Dimension) (ratio : IntVector)
    (axis : nat) (idx : Index) : Index :=
  if have_raja cfg && (2 <=? dim)%nat
  then FaceConstantRefine.coarsen_vector ratio idx
  else FaceConstantRefine.coarsen_face dim ratio axis idx.

(** The coarse value a constant refine assigns to the fine face [idx] of
    the array for [axis] and depth [d]. *)
Definition coarse_value {T} (cfg : Build) (dim : Dimension) (cdata : FaceData T)
    (ratio : IntVector) (axis d : nat) (idx : Index) : T :=
  face_array cdata axis d (source_index cfg dim ratio axis idx).

(** The execution order of a data-parallel loop: each cell once. *)
Definition schedule_wf (schedule : list Index -> list Index) : Prop :=
  forall cells, Permutation (schedule cells) cells.

(** The overlap holds a destination box on one of the axes of the
    dimension. *)
Definition has_destination_box (dim : Dimension) (boxes : list (list Box)) : bool :=
  existsb (fun axis => match getDestinationBoxContainer boxes axis with
                       | [] => false
                       | _ :: _ => true
                       end) (seq 0 dim).

(** Every destination box the operator visits has the dimension. *)
Definition overlap_boxes_of_dim (dim : Dimension) (boxes : list (list Box)) : Prop :=
  forall axis face_box,
    (axis < dim)%nat -> face_box ∈ getDestinationBoxContainer boxes axis ->
    box_dim face_box = dim.

End Spec.

Export Spec.

(** * Sample data *)

Module Samples.
Import OuternodeSumTransactionFactory.

(** Some [double]s: 1.0, 3.0, 5.0, 8.0, 2^53 and -2^53. *)
Definition d_1 : double := S754_finite false (2 ^ 52) (-52).
Definition d_3 : double := S754_finite false (3 * 2 ^ 51) (-51).
Definition d_5 : double := S754_finite false (5 * 2 ^ 50) (-50).
Definition d_8 : double := S754_finite false (2 ^ 52) (-49).
Definition d_2p53 : double := S754_finite false (2 ^ 52) 1.
Definition d_m2p53 : double := S754_finite true (2 ^ 52) 1.

Definition debug_build : Build :=
  {| debug_check_assertions := true; have_raja := true |}.

Definition release_build : Build :=
  {| debug_check_assertions := false; have_raja := true |}.

(** A debug build without [HAVE_RAJA]: the scalar kernels. *)
Definition scalar_build : Build :=
  {| debug_check_assertions := true; have_raja := false |}.

(** A 2D level of two patches; component 0 is an outernode field,
    component 1 data of another class, component 2 unallocated. *)
Definition sample_patch (v w : double) : Patch double :=
  {| patch_dim := 2%nat;
     patch_data := [Some (OuternodeDataOf {| outernode_values := [v; w] |});
                    Some OtherPatchData; None] |}.

Definition sample_level : PatchLevel :=
  {| level_dim := 2%nat; level_patches := [sample_patch d_3 d_5; sample_patch d_1 d_8] |}.

Definition sample_level_zeroed : PatchLevel :=
  {| level_dim := 2%nat;
     level_patches := [sample_patch double_zero double_zero;
                       sample_patch double_zero double_zero] |}.

Definition select_first : ComponentSelector :=
  {| selector_bits := [true; false; false] |}.

Definition sample_box (dim : Dimension) (id : Z) : Box :=
  {| box_dim := dim; box_lo := replicate dim 0; box_hi := replicate dim 7;
     box_local_id := id |}.

(** The ghost box of the sample data: cells -8 to 7 in every direction;
    the destination boxes below and their coarse faces lie inside. *)
Definition sample_ghost_box (dim : Dimension) : Box :=
  {| box_dim := dim; box_lo := replicate dim (-8); box_hi := replicate dim 7;
     box_local_id := 0 |}.

(** Face data on a 2D and on a 4D patch, one depth component. *)
Definition sample_face_data (dim : Dimension) (values : nat -> nat -> Index -> Z)
    : FaceData Z :=
  {| face_depth := 1; face_ghost_box := sample_ghost_box dim; face_array := values |}.

Definition coarse_values : nat -> nat -> Index -> Z :=
  fun axis d idx => 1000 * Z.of_nat axis + 10 * component idx 0 + component idx 1.

Definition sample_patch_of (dim : Dimension) (values : nat -> nat -> Index -> Z)
    : Patch Z :=
  {| patch_dim := dim; patch_data := [Some (FaceDataOf (sample_face_data dim values))] |}.

Definition sample_fine (dim : Dimension) : Patch Z :=
  sample_patch_of dim (fun _ _ _ => 0).

Definition sample_coarse (dim : Dimension) : Patch Z :=
  sample_patch_of dim coarse_values.

(** A face box below and above the origin, on axis 0 of a 2D overlap. *)
Definition sample_face_box : Box :=
  {| box_dim := 2%nat; box_lo := [-4; -2]; box_hi := [1; 1]; box_local_id := 0 |}.

Definition sample_overlap_2d : BoxOverlap := FaceOverlapOf [[sample_face_box]; []].



(** A face box on axis 1 of a 2D overlap: its first component runs along
    direction 1, its second along direction 0. *)
Definition sample_face_box_axis_1 : Box :=
  {| box_dim := 2; box_lo := [4; 0]; box_hi := [5; 1]; box_local_id := 0 |}.

Definition sample_overlap_axis_1 : BoxOverlap :=
  FaceOverlapOf [[]; [sample_face_box_axis_1]].

Definition sequential : list Index -> list Index := fun cells => cells.

Definition reversed : list Index -> list Index := fun cells => reverse cells.

End Samples.

Export Samples.

(** * Further statements *)

Module SpecMore.

(** The contract of [allocate]: no null argument, assigned boxes, and one
    dimension for the levels and the boxes. *)
Definition allocate_preconditions (dst_level src_level : option PatchLevel)
    (overlap : option BoxOverlap) (dst_node src_node : Box) (refine_data : Z) : Prop :=
  exists dl sl,
    dst_level = Some dl /\ src_level = Some sl /\ is_Some overlap
    /\ 0 <= getLocalId dst_node /\ 0 <= getLocalId src_node /\ refine_data <> 0
    /\ allocate_dimensions_agree dl sl dst_node src_node.

(** Every selected component of the patch is an outernode field. *)
Definition selection_is_outernode (sel : ComponentSelector) (p : Patch double) : Prop :=
  forall n, isSet sel n = true -> is_Some (as_OuternodeData (getPatchData p n)).

(** The contract of [refine]: a face overlap whose boxes have the
    dimension, face data of equal depth on both patches, one dimension
    for the patches and the ratio. *)
Definition refine_preconditions {T} (fine coarse : Patch T) (dst src : nat)
    (ov : BoxOverlap) (ratio : IntVector) : Prop :=
  exists boxes cdata fdata,
    ov = FaceOverlapOf boxes
    /\ getPatchData coarse src = Some (FaceDataOf cdata)
    /\ getPatchData fine dst = Some (FaceDataOf fdata)
    /\ face_depth cdata = face_depth fdata
    /\ refine_dimensions_agree fine coarse ratio
    /\ overlap_boxes_of_dim (patch_dim fine) boxes.

(** The faces [refine] writes: those of the destination boxes, on the
    axes of the dimension, for the depth components of the data. *)
Definition written (dim : Dimension) (depth : Z) (boxes : list (list Box))
    (axis d : nat) (idx : Index) : Prop :=
  (axis < dim)%nat /\ (d < Z.to_nat depth)%nat
  /\ exists face_box, face_box ∈ getDestinationBoxContainer boxes axis
                      /\ idx ∈ destination_faces dim axis face_box.
(** The value of [indx] when the loop over the directions reaches [id]:
    the number of directions below [id] other than the pencil direction.
    For a direction other than the pencil direction it is its position in
    [tmp]. *)
Definition pencil_slot (pencil_direction id : nat) : nat :=
  if (id <=? pencil_direction)%nat then id else (id - 1)%nat.

(** The state of the pencil box during the last loop: the pencil
    direction is as in the bounding box, the corners keep their
    length. *)
Definition pencil_inv (dim pd : nat) (bb pb : Box) : Prop :=
  length (box_lo pb) = dim /\ length (box_hi pb) = dim
  /\ box_dim pb = box_dim bb /\ box_local_id pb = box_local_id bb
  /\ lower pb pd = lower bb pd /\ upper pb pd = upper bb pd.

End SpecMore.

Export SpecMore.

(** * Properties *)

(** ** Machine integers and the result monad *)

Lemma wrap_in_int z : in_int z -> wrap z = z.
Proof.
  unfold in_int, int_min, int_max, wrap. intros H.
  rewrite Z.mod_small; lia.
Qed.

Lemma bind_Ok {A B} (m : result A) (k : A -> result B) b :
  bind m k = Ok b -> exists a, m = Ok a /\ k a = Ok b.
Proof. destruct m as [a|e]; simpl; [eauto | discriminate]. Qed.

Lemma mbind_Ok {A B} (m : result A) (k : A -> result B) b :
  m ≫= k = Ok b -> exists a, m = Ok a /\ k a = Ok b.
Proof. apply bind_Ok. Qed.

Lemma TBOX_ASSERT_true cfg : TBOX_ASSERT cfg true = Ok tt.
Proof. unfold TBOX_ASSERT. simpl. by rewrite andb_false_r. Qed.

Lemma TBOX_DIM_ASSERT_true cfg : TBOX_DIM_ASSERT cfg true = Ok tt.
Proof. unfold TBOX_DIM_ASSERT. simpl. by rewrite andb_false_r. Qed.

Lemma TBOX_ASSERT_debug cfg c :
  debug_check_assertions cfg = true ->
  TBOX_ASSERT cfg c = if c then Ok tt else Err AssertionFailed.
Proof. unfold TBOX_ASSERT. intros ->. by destruct c. Qed.

Lemma TBOX_DIM_ASSERT_debug cfg c :
  debug_check_assertions cfg = true ->
  TBOX_DIM_ASSERT cfg c = if c then Ok tt else Err DimensionMismatch.
Proof. unfold TBOX_DIM_ASSERT. intros ->. by destruct c. Qed.

(** An assertion either passes or stops the call; it yields nothing else. *)
Lemma TBOX_ASSERT_cases cfg c :
  TBOX_ASSERT cfg c = Ok tt \/ TBOX_ASSERT cfg c = Err AssertionFailed.
Proof. unfold TBOX_ASSERT. destruct (_ && _); auto. Qed.

Lemma for_each_app {A S} (body : A -> S -> result S) l1 l2 s :
  for_each body (l1 ++ l2) s = bind (for_each body l1 s) (for_each body l2).
Proof.
  revert s. induction l1 as [|a l1 IH]; intros s; simpl; [done|].
  destruct (body a s); simpl; [apply IH | done].
Qed.

(** A property kept by every iteration is kept by the loop. *)
Lemma for_each_invariant {A S} (body : A -> S -> result S) (Inv : S -> Prop) l :
  (forall a s s', a ∈ l -> body a s = Ok s' -> Inv s -> Inv s') ->
  forall s s', for_each body l s = Ok s' -> Inv s -> Inv s'.
Proof.
  induction l as [|a l IH]; intros Hstep s s' Hrun Hs; simpl in Hrun.
  - by inversion Hrun; subst.
  - apply bind_Ok in Hrun as (s1 & H1 & H2).
    eapply IH; [| exact H2 |].
    + intros b t t' Hb. apply Hstep. by right.
    + eapply Hstep; [by left | exact H1 | exact Hs].
Qed.

(** A property established by the iteration of [a] and kept by every
    iteration holds after a loop that visits [a]. *)
Lemma for_each_establishes {A S} (body : A -> S -> result S) (Post : S -> Prop) l a :
  a ∈ l ->
  (forall s s', body a s = Ok s' -> Post s') ->
  (forall b s s', b ∈ l -> body b s = Ok s' -> Post s -> Post s') ->
  forall s s', for_each body l s = Ok s' -> Post s'.
Proof.
  induction l as [|b l IH]; intros Hin Hest Hkeep s s' Hrun.
  - by apply elem_of_nil in Hin.
  - simpl in Hrun. apply bind_Ok in Hrun as (s1 & H1 & H2).
    apply elem_of_cons in Hin as [->|Hin].
    + eapply (for_each_invariant body Post l); [| exact H2 |].
      * intros c t t' Hc. apply Hkeep. by right.
      * eapply Hest; eauto.
    + eapply IH; eauto. intros c t t' Hc. apply Hkeep. by right.
Qed.

(** ** BlockId and PeriodicId *)

(** C8, as stated, fails: both identifiers are built from [int] values, and
    the invalid periodic identifier is [-1], below its zero identifier and
    not the maximum [int]. *)
Lemma periodic_invalid_id_not_maximum :
  ~ sentinels_are_maxima SignedInt SignedInt
  /\ PeriodicId.s_invalid_id SignedInt = -1
  /\ PeriodicId.s_invalid_id SignedInt < PeriodicId.s_zero_id SignedInt.
Proof.
  split; [|split]; [| reflexivity | reflexivity].
  intros (_ & H & _). vm_compute in H. discriminate.
Qed.

(** C8, amended: the invalid block identifier is the maximum [int]
    (2^31 - 1), the invalid periodic identifier is the [int] -1 (all bits
    set: the maximum only of an unsigned member), and both zero
    identifiers are 0, whichever of the two 32-bit types stores them. *)
Theorem reserved_identifier_values (ty : int_type) :
  BlockId.s_invalid_id ty = int_max
  /\ BlockId.s_invalid_id SignedInt = type_max SignedInt
  /\ PeriodicId.s_invalid_id ty
     = match ty with SignedInt => -1 | UnsignedInt => type_max UnsignedInt end
  /\ BlockId.s_zero_id ty = 0
  /\ PeriodicId.s_zero_id ty = 0
  /\ bool_decide (BlockId.s_invalid_id ty = type_max ty)
     = match ty with SignedInt => true | UnsignedInt => false end
  /\ bool_decide (PeriodicId.s_invalid_id ty = type_max ty)
     = match ty with SignedInt => false | UnsignedInt => true end.
Proof. destruct ty; vm_compute; repeat split. Qed.

(** ** Connector widths of the time refinement integrator *)

Section ConnectorWidths.
Import TimeRefinementIntegratorConnectorWidthRequestor.

Lemma requested_width_is_Some tag_buffer ln :
  tag_buffer <> [] -> is_Some (requested_width tag_buffer ln).
Proof.
  intros Hne. unfold requested_width. case_decide.
  - by apply lookup_lt_is_Some.
  - destruct (last tag_buffer) eqn:E; [eauto|].
    by apply last_None in E.
Qed.

Lemma push_level_requested this dim ln acc v :
  requested_width (d_tag_buffer this) ln = Some v ->
  push_level this dim ln acc = Ok (acc ++ [IntVector_uniform dim v]).
Proof.
  unfold requested_width, push_level, vector_at, vector_back. intros H.
  case_decide as Hlt.
  - apply Nat.ltb_lt in Hlt. rewrite Hlt, H. reflexivity.
  - apply Nat.ltb_nlt in Hlt. rewrite Hlt, H. reflexivity.
Qed.

(** The loop over the levels, [max_levels] iterations from an emptied
    vector. *)
Lemma push_levels this dim n :
  d_tag_buffer this <> [] ->
  exists self,
    for_each (push_level this dim) (seq 0 n) [] = Ok self
    /\ length self = n
    /\ forall ln, (ln < n)%nat ->
         exists v, requested_width (d_tag_buffer this) ln = Some v
                   /\ self !! ln = Some (IntVector_uniform dim v).
Proof.
  intros Hne. induction n as [|n (self & Hrun & Hlen & Hent)].
  - exists []. split; [done|]. split; [done|]. intros ln Hln. lia.
  - destruct (requested_width_is_Some (d_tag_buffer this) n Hne) as [v Hv].
    exists (self ++ [IntVector_uniform dim v]).
    rewrite seq_S, for_each_app, Hrun. simpl.
    rewrite (push_level_requested _ _ _ _ v Hv). simpl.
    split; [done|]. split; [rewrite length_app; simpl; lia|].
    intros ln Hln. destruct (decide (ln = n)) as [->|Hneq].
    + exists v. split; [done|].
      rewrite lookup_app_r by lia. by rewrite Hlen, Nat.sub_diag.
    + destruct (Hent ln) as (w & Hw & Hl); [lia|].
      exists w. split; [done|]. by rewrite lookup_app_l by lia.
Qed.

Lemma resize_fine dim max_levels (fine : list IntVector) :
  1 <= max_levels <= int_max ->
  vector_resize (wrap (max_levels - 1)) (IntVector_getZero dim) fine
  = Ok (take (Z.to_nat (max_levels - 1)) fine
        ++ replicate (Z.to_nat (max_levels - 1) - length fine)%nat
             (IntVector_getZero dim)).
Proof.
  intros H. unfold vector_resize.
  rewrite wrap_in_int by (unfold in_int, int_min, int_max in *; lia).
  destruct (Z.ltb_spec (max_levels - 1) 0); [lia | done].
Qed.

Lemma computeRequiredConnectorWidths_Ok this self fine h :
  d_tag_buffer this <> [] ->
  1 <= hierarchy_max_levels h <= int_max ->
  exists self',
    computeRequiredConnectorWidths this self fine h
    = Ok (self',
          take (Z.to_nat (hierarchy_max_levels h - 1)) fine
          ++ replicate (Z.to_nat (hierarchy_max_levels h - 1) - length fine)%nat
               (IntVector_getZero (hierarchy_dim h)))
    /\ length self' = Z.to_nat (hierarchy_max_levels h)
    /\ forall ln, (ln < Z.to_nat (hierarchy_max_levels h))%nat ->
         exists v, requested_width (d_tag_buffer this) ln = Some v
                   /\ self' !! ln = Some (IntVector_uniform (hierarchy_dim h) v).
Proof.
  intros Hne Hml.
  destruct (push_levels this (hierarchy_dim h) (Z.to_nat (hierarchy_max_levels h)) Hne)
    as (self' & Hrun & Hlen & Hent).
  exists self'. split; [|done].
  unfold computeRequiredConnectorWidths.
  rewrite resize_fine by done. simpl.
  unfold mbind, result_bind at 1. simpl. rewrite Hrun. reflexivity.
Qed.

(** C3: with a non-empty tag buffer, [self_connector_widths] comes back
    with exactly [max_levels] entries; entry [ln] has, in every axis, the
    tag buffer's entry [ln] when the buffer has one and the last
    supplied entry for every finer level. *)
Theorem self_connector_widths_from_tag_buffer this self fine h :
  d_tag_buffer this <> [] ->
  1 <= hierarchy_max_levels h <= int_max ->
  exists self' fine',
    computeRequiredConnectorWidths this self fine h = Ok (self', fine')
    /\ length self' = Z.to_nat (hierarchy_max_levels h)
    /\ forall ln, (ln < Z.to_nat (hierarchy_max_levels h))%nat ->
         exists v width,
           (if decide (ln < length (d_tag_buffer this))%nat
            then d_tag_buffer this !! ln
            else last (d_tag_buffer this)) = Some v
           /\ self' !! ln = Some width
           /\ length width = hierarchy_dim h
           /\ forall axis, (axis < hierarchy_dim h)%nat -> width !! axis = Some v.
Proof.
  intros Hne Hml.
  destruct (computeRequiredConnectorWidths_Ok this self fine h Hne Hml)
    as (self' & Hrun & Hlen & Hent).
  eexists self', _. split; [exact Hrun|]. split; [exact Hlen|].
  intros ln Hln. destruct (Hent ln Hln) as (v & Hv & Hl).
  exists v, (IntVector_uniform (hierarchy_dim h) v).
  split; [exact Hv|]. split; [exact Hl|].
  unfold IntVector_uniform. split; [apply length_replicate|].
  intros axis Haxis. by apply lookup_replicate_2.
Qed.

Lemma self_connector_widths_from_tag_buffer_witness :
  exists self' fine',
    computeRequiredConnectorWidths {| d_tag_buffer := [3; 2] |} [[9; 9]] []
      {| hierarchy_dim := 2%nat; hierarchy_max_levels := 4 |} = Ok (self', fine')
    /\ self' = [[3; 3]; [2; 2]; [2; 2]; [2; 2]].
Proof.
  destruct (self_connector_widths_from_tag_buffer
              {| d_tag_buffer := [3; 2] |} [[9; 9]] []
              {| hierarchy_dim := 2%nat; hierarchy_max_levels := 4 |})
    as (self' & fine' & Hrun & _); [done | vm_compute; split; discriminate |].
  exists self', fine'. split; [exact Hrun|].
  vm_compute in Hrun. by inversion Hrun.
Defined.

(** C9 does not hold of the code: [fine_connector_widths] is resized,
    not reassigned, so an entry the vector holds on entry is kept,
    although the call clears the sibling [self_connector_widths] and
    passes a zero fill value to the resize.  Passed in with the entry
    (5, 5) on a hierarchy of three levels, the vector comes back as
    (5, 5), (0, 0), where the claim has two zero vectors; the sibling
    vector, passed in with (9, 9), comes back without that entry.
    Passed in empty, the vector comes back as the claim says. *)
Theorem fine_connector_widths_keeps_entries :
  computeRequiredConnectorWidths {| d_tag_buffer := [1] |} [[9; 9]] [[5; 5]]
    {| hierarchy_dim := 2%nat; hierarchy_max_levels := 3 |}
  = Ok ([[1; 1]; [1; 1]; [1; 1]], [[5; 5]; [0; 0]])
  /\ [5; 5] <> IntVector_getZero 2%nat
  /\ computeRequiredConnectorWidths {| d_tag_buffer := [1] |} [[9; 9]] []
       {| hierarchy_dim := 2%nat; hierarchy_max_levels := 3 |}
     = Ok ([[1; 1]; [1; 1]; [1; 1]], [[0; 0]; [0; 0]]).
Proof. split; [reflexivity | split; [discriminate | reflexivity]]. Qed.

(** What the call does to [fine_connector_widths] for any input: with a
    non-empty tag buffer the vector comes back with [max_levels - 1]
    entries, those it held on entry followed by zero vectors (zero
    vectors only when it is passed in empty), whatever the tag buffer
    holds. *)
Lemma fine_connector_widths_resized this self fine h :
  d_tag_buffer this <> [] ->
  1 <= hierarchy_max_levels h <= int_max ->
  exists self' fine',
    computeRequiredConnectorWidths this self fine h = Ok (self', fine')
    /\ length fine' = Z.to_nat (hierarchy_max_levels h - 1)
    /\ (forall i, (i < length fine')%nat ->
          fine' !! i = if decide (i < length fine)%nat then fine !! i
                       else Some (IntVector_getZero (hierarchy_dim h)))
    /\ (fine = [] -> Forall (fun w => w = IntVector_getZero (hierarchy_dim h)) fine')
    /\ (forall other other_self, d_tag_buffer other <> [] ->
          exists self'',
            computeRequiredConnectorWidths other other_self fine h
            = Ok (self'', fine')).
Proof.
  intros Hne Hml.
  destruct (computeRequiredConnectorWidths_Ok this self fine h Hne Hml)
    as (self' & Hrun & _).
  set (n := Z.to_nat (hierarchy_max_levels h - 1)) in *.
  eexists self', _. split; [exact Hrun|].
  assert (Hlen : length (take n fine
                  ++ replicate (n - length fine) (IntVector_getZero (hierarchy_dim h)))
                 = n).
  { rewrite length_app, length_take, length_replicate. lia. }
  split; [exact Hlen|]. split; [|split].
  - intros i Hi. rewrite Hlen in Hi. case_decide as Hlt.
    + rewrite lookup_app_l by (rewrite length_take; lia).
      by apply lookup_take_lt.
    + rewrite lookup_app_r by (rewrite length_take; lia).
      apply lookup_replicate_2. rewrite length_take. lia.
  - intros ->. rewrite take_nil. simpl. apply Forall_replicate. reflexivity.
  - intros other other_self Hother.
    destruct (computeRequiredConnectorWidths_Ok other other_self fine h Hother Hml)
      as (self'' & Hrun' & _).
    by exists self''.
Qed.

End ConnectorWidths.


(** ** The factory of outernode sum transactions *)

Section Factory.
Import OuternodeSumTransactionFactory.

(** [allocate] behind its own assertions: the nine-argument overload
    repeats them on the same arguments. *)
Lemma allocate_unfold cfg dl src_level overlap dst_node src_node refine_data item_id :
  allocate cfg (Some dl) src_level overlap dst_node src_node refine_data item_id
  = allocate9 cfg (Some dl) src_level overlap dst_node src_node refine_data item_id
      (Box_of_dim (level_dim dl)) false.
Proof.
  unfold allocate, allocate9.
  destruct (check_arguments cfg (Some dl) src_level overlap dst_node src_node refine_data)
    as [[]|e]; reflexivity.
Qed.

(** C4: for a non-null destination level, the overload without clip box
    and interpolation flag returns exactly what the nine-argument overload
    returns when the defaults ([hier::Box] of the destination level's
    dimension, and [false]) are passed explicitly: the same transaction,
    or the same assertion failure.  The nine-argument overload ignores
    both arguments, so any other box or flag gives the same result too. *)
Theorem allocate_defaults_explicit cfg (dl : PatchLevel) src_level overlap
    dst_node src_node refine_data item_id :
  allocate cfg (Some dl) src_level overlap dst_node src_node refine_data item_id
  = allocate9 cfg (Some dl) src_level overlap dst_node src_node refine_data item_id
      (Box_of_dim (level_dim dl)) false
  /\ forall box use_time_interpolation,
       allocate9 cfg (Some dl) src_level overlap dst_node src_node refine_data item_id
         box use_time_interpolation
       = allocate cfg (Some dl) src_level overlap dst_node src_node refine_data item_id.
Proof.
  split; [apply allocate_unfold|].
  intros box flag. rewrite allocate_unfold. reflexivity.
Qed.

(** Under the preconditions of the contract both overloads return the
    transaction that records the seven arguments. *)
Lemma allocate_returns cfg dl sl ov dst_node src_node refine_data item_id :
  0 <= getLocalId dst_node -> 0 <= getLocalId src_node -> refine_data <> 0 ->
  allocate_dimensions_agree dl sl dst_node src_node ->
  allocate cfg (Some dl) (Some sl) (Some ov) dst_node src_node refine_data item_id
  = Ok {| d_dst_level := Some dl; d_src_level := Some sl; d_overlap := Some ov;
          d_dst_node := dst_node; d_src_node := src_node;
          d_refine_data := refine_data; d_item_id := item_id |}.
Proof.
  intros Hd Hs Hr (H1 & H2 & H3).
  rewrite allocate_unfold. unfold allocate9, check_arguments, assert_objdim_equality4.
  rewrite !bool_decide_eq_true_2 by eauto.
  apply Z.leb_le in Hd, Hs. rewrite Hd, Hs.
  apply Z.eqb_neq in Hr. rewrite Hr. simpl.
  rewrite !TBOX_ASSERT_true, TBOX_DIM_ASSERT_true. reflexivity.
Qed.

(** The dimension check of [allocate] in a debug build, once the
    assertions before it hold. *)
Lemma check_arguments_dimensions cfg dl sl ov dst_node src_node refine_data :
  debug_check_assertions cfg = true ->
  0 <= getLocalId dst_node -> 0 <= getLocalId src_node -> refine_data <> 0 ->
  check_arguments cfg (Some dl) (Some sl) (Some ov) dst_node src_node refine_data
  = if decide (allocate_dimensions_agree dl sl dst_node src_node)
    then Ok tt else Err DimensionMismatch.
Proof.
  intros Hdbg Hd Hs Hr.
  unfold check_arguments, assert_objdim_equality4.
  rewrite !(bool_decide_eq_true_2 (is_Some _)) by eauto.
  apply Z.leb_le in Hd, Hs. rewrite Hd, Hs.
  apply Z.eqb_neq in Hr. rewrite Hr. simpl.
  rewrite !TBOX_ASSERT_true. simpl.
  rewrite TBOX_DIM_ASSERT_debug by done.
  case_decide as Hag.
  - destruct Hag as (H1 & H2 & H3). by rewrite !bool_decide_eq_true_2 by done.
  - destruct (_ && _) eqn:E; [|done].
    exfalso. apply Hag.
    apply andb_true_iff in E as [E E3]. apply andb_true_iff in E as [E1 E2].
    repeat split; by eapply bool_decide_eq_true_1.
Qed.



(** *** Zero fill of the scratch space *)

Lemma getPatchData_lt {T} (p : Patch T) n d :
  getPatchData p n = Some d -> (n < length (patch_data p))%nat.
Proof.
  unfold getPatchData. intros H. apply lookup_lt_is_Some.
  destruct (patch_data p !! n); [eauto | discriminate].
Qed.

Lemma getPatchData_set {T} (p : Patch T) n d :
  (n < length (patch_data p))%nat -> getPatchData (setPatchData p n d) n = Some d.
Proof.
  intros H. unfold getPatchData, setPatchData. simpl.
  by rewrite list_lookup_insert_eq.
Qed.

Lemma patch_data_set_other {T} (p : Patch T) n m d :
  n <> m -> patch_data (setPatchData p n d) !! m = patch_data p !! m.
Proof. intros H. unfold setPatchData. simpl. by apply list_lookup_insert_ne. Qed.

Lemma as_OuternodeData_Some {T} (pd : option (PatchData T)) o :
  as_OuternodeData pd = Some o -> pd = Some (OuternodeDataOf o).
Proof. destruct pd as [[| |]|]; simpl; congruence. Qed.

Lemma fillAll_zero (o : OuternodeData double) : all_zero (fillAll double_zero o).
Proof. unfold all_zero, fillAll. simpl. by apply Forall_replicate. Qed.

(** One iteration of the loop over components: nothing happens to a patch
    for a component that is not selected; a selected component is an
    outernode field, and it is replaced by its zero-filled version. *)
Lemma preprocess_component_Ok cfg sel n p p' :
  preprocess_component cfg sel n p = Ok p' ->
  (isSet sel n = false /\ p' = p)
  \/ (isSet sel n = true /\
      exists o, getPatchData p n = Some (OuternodeDataOf o)
                /\ p' = setPatchData p n (OuternodeDataOf (fillAll double_zero o))).
Proof.
  unfold preprocess_component. destruct (isSet sel n); [|intros [= <-]; by left].
  intros H. right. split; [done|].
  apply mbind_Ok in H as (u & _ & H).
  apply mbind_Ok in H as (o & Ho & H).
  destruct (as_OuternodeData (getPatchData p n)) as [o'|] eqn:E; [|discriminate].
  injection Ho as ->. injection H as <-.
  exists o. split; [by apply as_OuternodeData_Some | done].
Qed.

Lemma same_unselected_refl sel p : same_unselected sel p p.
Proof. by repeat split. Qed.

Lemma preprocess_component_frame cfg sel n p0 p p' :
  preprocess_component cfg sel n p = Ok p' ->
  same_unselected sel p0 p -> same_unselected sel p0 p'.
Proof.
  intros H (Hd & Hl & Hf).
  apply preprocess_component_Ok in H as [[_ ->] | [Hset (o & Hget & ->)]]; [done|].
  split; [done|]. split; [simpl; by rewrite length_insert|].
  intros m Hm. rewrite patch_data_set_other; [by apply Hf | congruence].
Qed.

Lemma preprocess_patch_frame cfg sel p p' :
  preprocess_patch cfg sel p = Ok p' -> same_unselected sel p p'.
Proof.
  unfold preprocess_patch. intros H.
  eapply (for_each_invariant _ (same_unselected sel p)); [| exact H |].
  - intros n s s' _ Hs Hinv. by eapply preprocess_component_frame.
  - apply same_unselected_refl.
Qed.

Lemma preprocess_component_zero cfg sel n p p' :
  isSet sel n = true ->
  preprocess_component cfg sel n p = Ok p' -> zero_component n p'.
Proof.
  intros Hset H.
  apply preprocess_component_Ok in H as [[Hn _] | [_ (o & Hget & ->)]]; [congruence|].
  eexists. split; [|apply fillAll_zero].
  apply getPatchData_set. by eapply getPatchData_lt.
Qed.

Lemma preprocess_component_keeps_zero cfg sel n m p p' :
  preprocess_component cfg sel m p = Ok p' ->
  zero_component n p -> zero_component n p'.
Proof.
  intros H Hz.
  apply preprocess_component_Ok in H as [[_ ->] | [_ (o & Hget & ->)]]; [done|].
  destruct (decide (m = n)) as [->|Hne].
  - eexists. split; [|apply fillAll_zero].
    apply getPatchData_set. by eapply getPatchData_lt.
  - destruct Hz as (o' & Hget' & Hz). exists o'. split; [|done].
    unfold getPatchData in *. by rewrite patch_data_set_other.
Qed.

Lemma isSet_lt sel n : isSet sel n = true -> (n < getSize sel)%nat.
Proof.
  unfold isSet, getSize. intros H.
  destruct (decide (n < length (selector_bits sel))%nat) as [|Hge]; [done|].
  rewrite lookup_ge_None_2 in H by lia. discriminate.
Qed.

Lemma preprocess_patch_zero cfg sel p p' n :
  preprocess_patch cfg sel p = Ok p' -> isSet sel n = true -> zero_component n p'.
Proof.
  unfold preprocess_patch. intros H Hset.
  eapply (for_each_establishes _ (zero_component n) _ n); [| | | exact H].
  - apply elem_of_seq. apply isSet_lt in Hset. lia.
  - intros s s'. by apply preprocess_component_zero.
  - intros m s s' _. apply preprocess_component_keeps_zero.
Qed.

Lemma preprocess_patches_Forall2 cfg sel patches patches' :
  preprocess_patches cfg sel patches = Ok patches' ->
  Forall2 (fun p p' => preprocess_patch cfg sel p = Ok p') patches patches'.
Proof.
  revert patches'. induction patches as [|p l IH]; intros l' H; simpl in H.
  - injection H as <-. constructor.
  - apply mbind_Ok in H as (p' & Hp & H).
    apply mbind_Ok in H as (rest & Hrest & H).
    injection H as <-. constructor; [done | by apply IH].
Qed.

Lemma preprocessScratchSpace_Ok cfg level fill_time sel level' :
  preprocessScratchSpace cfg level fill_time sel = Ok level' ->
  exists lv, level = Some lv
             /\ level_dim level' = level_dim lv
             /\ Forall2 (fun p p' => preprocess_patch cfg sel p = Ok p')
                  (level_patches lv) (level_patches level').
Proof.
  unfold preprocessScratchSpace. intros H.
  apply mbind_Ok in H as (u & _ & H).
  apply mbind_Ok in H as (lv & Hlv & H).
  apply mbind_Ok in H as (ps & Hps & H).
  destruct level as [lv0|]; [|discriminate]. injection Hlv as ->.
  injection H as <-. exists lv. split; [done|]. split; [done|].
  by apply preprocess_patches_Forall2.
Qed.

(** The call returns whenever the level is not null and every selected
    component of every patch is an outernode field. *)
Lemma preprocessScratchSpace_returns cfg lv fill_time sel :
  Forall (fun p => forall n, isSet sel n = true ->
                   is_Some (as_OuternodeData (getPatchData p n))) (level_patches lv) ->
  exists level', preprocessScratchSpace cfg (Some lv) fill_time sel = Ok level'.
Proof.
  intros Hall. unfold preprocessScratchSpace.
  rewrite bool_decide_eq_true_2 by eauto. rewrite TBOX_ASSERT_true. simpl.
  assert (Hps : exists ps, preprocess_patches cfg sel (level_patches lv) = Ok ps).
  { induction Hall as [|p l Hp _ (ps & IH)]; [by exists []|].
    assert (Hpatch : exists p', preprocess_patch cfg sel p = Ok p').
    { unfold preprocess_patch.
      assert (Hloop : forall l0 q,
                 (forall n, isSet sel n = true ->
                            is_Some (as_OuternodeData (getPatchData q n))) ->
                 exists q', for_each (preprocess_component cfg sel) l0 q = Ok q').
      { induction l0 as [|n l0 IHl]; intros q Hq; [by exists q|].
        simpl. unfold preprocess_component at 1.
        destruct (isSet sel n) eqn:Hn; simpl; [|by apply IHl].
        destruct (Hq n Hn) as [o Ho]. rewrite Ho.
        rewrite bool_decide_eq_true_2 by eauto. rewrite TBOX_ASSERT_true. simpl.
        apply IHl. intros m Hm.
        destruct (decide (n = m)) as [<-|Hne].
        - rewrite getPatchData_set; [by eexists|].
          apply as_OuternodeData_Some in Ho. by eapply getPatchData_lt.
        - unfold getPatchData. rewrite patch_data_set_other by done. by apply Hq. }
      by apply Hloop. }
    destruct Hpatch as (p' & Hp'). exists (p' :: ps). simpl.
    by rewrite Hp', IH. }
  destruct Hps as (ps & ->). simpl. by eexists.
Qed.

Lemma all_zero_fillAll (o : OuternodeData double) :
  all_zero o -> fillAll double_zero o = o.
Proof.
  destruct o as [values]. unfold all_zero, fillAll. simpl. intros H. f_equal.
  induction H as [|v l -> _ IH]; simpl; [done | by rewrite IH].
Qed.

(** The loop over the components of one patch, seen at a selected
    component: the patch held an outernode field there, and holds that
    field with every value replaced by 0.0 afterwards. *)
Lemma preprocess_patch_fills cfg sel p p' n :
  preprocess_patch cfg sel p = Ok p' -> isSet sel n = true ->
  exists o, getPatchData p n = Some (OuternodeDataOf o)
            /\ getPatchData p' n = Some (OuternodeDataOf (fillAll double_zero o)).
Proof.
  intros H Hset.
  set (Inv := fun s : Patch double =>
         getPatchData s n = getPatchData p n
         \/ exists o, getPatchData p n = Some (OuternodeDataOf o)
                      /\ getPatchData s n
                         = Some (OuternodeDataOf (fillAll double_zero o))).
  assert (Hinv : Inv p').
  { unfold preprocess_patch in H.
    eapply (for_each_invariant _ Inv); [|exact H|by left].
    intros m s s' _ Hstep Hs.
    apply preprocess_component_Ok in Hstep as [[_ ->] | [_ (o1 & Hget & ->)]]; [done|].
    destruct (decide (m = n)) as [->|Hne].
    - right. rewrite getPatchData_set by (by eapply getPatchData_lt).
      destruct Hs as [Hs | (o & Hp & Hs)].
      + exists o1. split; [congruence | done].
      + exists o. split; [done|].
        assert (o1 = fillAll double_zero o) as -> by congruence.
        by rewrite (all_zero_fillAll _ (fillAll_zero o)).
    - assert (Hsame : getPatchData (setPatchData s m
                          (OuternodeDataOf (fillAll double_zero o1))) n
                      = getPatchData s n).
      { unfold getPatchData. by rewrite patch_data_set_other. }
      unfold Inv. rewrite Hsame. exact Hs. }
  destruct Hinv as [Hsame | (o & Hp & Hp')]; [|by exists o].
  destruct (preprocess_patch_zero cfg sel p p' n H Hset) as (o' & Hget & Hzero).
  exists o'. split; [congruence|]. by rewrite all_zero_fillAll.
Qed.

(** C2: [preprocessScratchSpace] returns whenever the level is not null
    and its selected components are outernode fields, and after it has
    returned the level holds the patches it held, in order, and on every
    one of them every selected component is the outernode field it was,
    with as many values, all of them exactly 0.0. *)
Theorem preprocessScratchSpace_zero_fills cfg level fill_time sel :
  (forall lv, level = Some lv ->
     Forall (selection_is_outernode sel) (level_patches lv) ->
     exists level', preprocessScratchSpace cfg level fill_time sel = Ok level')
  /\ forall level',
       preprocessScratchSpace cfg level fill_time sel = Ok level' ->
       exists lv,
         level = Some lv
         /\ length (level_patches level') = length (level_patches lv)
         /\ forall i patch,
              level_patches lv !! i = Some patch ->
              exists patch',
                level_patches level' !! i = Some patch'
                /\ forall n, isSet sel n = true ->
                     exists o o',
                       getPatchData patch n = Some (OuternodeDataOf o)
                       /\ getPatchData patch' n = Some (OuternodeDataOf o')
                       /\ length (outernode_values o') = length (outernode_values o)
                       /\ Forall (fun v => v = double_zero) (outernode_values o').
Proof.
  split.
  - intros lv -> Hall. by apply preprocessScratchSpace_returns.
  - intros level' H.
    apply preprocessScratchSpace_Ok in H as (lv & -> & _ & Hall).
    exists lv. split; [done|].
    split; [symmetry; by eapply Forall2_length|].
    intros i patch Hp.
    destruct (Forall2_lookup_l _ _ _ _ _ Hall Hp) as (patch' & Hp' & Hrun).
    exists patch'. split; [done|]. intros n Hset.
    destruct (preprocess_patch_fills cfg sel patch patch' n Hrun Hset)
      as (o & Hget & Hget').
    exists o, (fillAll double_zero o). split; [done|]. split; [done|].
    split; [simpl; apply length_replicate | apply fillAll_zero].
Qed.

(** C10: [preprocessScratchSpace] leaves every component whose bit is not
    set as it was, on every patch (the level keeps its patches, in order,
    with their dimension and their number of components), and the result
    does not depend on [fill_time]. *)
Theorem preprocessScratchSpace_frame cfg level fill_time sel level' :
  preprocessScratchSpace cfg level fill_time sel = Ok level' ->
  (exists lv, level = Some lv
     /\ level_dim level' = level_dim lv
     /\ length (level_patches level') = length (level_patches lv)
     /\ forall i patch patch',
          level_patches lv !! i = Some patch ->
          level_patches level' !! i = Some patch' ->
          patch_dim patch' = patch_dim patch
          /\ length (patch_data patch') = length (patch_data patch)
          /\ forall n, isSet sel n = false ->
                       patch_data patch' !! n = patch_data patch !! n)
  /\ forall other_time,
       preprocessScratchSpace cfg level other_time sel = Ok level'.
Proof.
  intros H. split; [|intros other_time; exact H].
  apply preprocessScratchSpace_Ok in H as (lv & -> & Hdim & Hall).
  exists lv. split; [done|]. split; [done|].
  split; [symmetry; by eapply Forall2_length|].
  intros i patch patch' Hp Hp'.
  assert (Hrun : preprocess_patch cfg sel patch = Ok patch').
  { destruct (Forall2_lookup_l _ _ _ _ _ Hall Hp) as (q & Hq & Hrun). congruence. }
  by apply preprocess_patch_frame in Hrun.
Qed.

End Factory.


(** ** Sum semantics *)

Section Sum.
Import SumRound.

Lemma double_add_comm x y : double_add x y = double_add y x.
Proof.
  destruct x as [sx|sx| |sx mx ex], y as [sy|sy| |sy my ey];
    try reflexivity; try (destruct sx, sy; reflexivity).
  unfold double_add, SFadd. by rewrite Z.min_comm, Z.add_comm.
Qed.

(** Adding to the zero of the zero fill: the value itself, except that a
    negative zero becomes the positive one. *)
Lemma double_add_zero_l x :
  double_add double_zero x
  = match x with S754_zero _ => double_zero | _ => x end.
Proof. destruct x as [[]|[]| |]; reflexivity. Qed.

Lemma double_add_zero_r x s :
  double_add x (S754_zero s)
  = match x with
    | S754_zero sx => if Bool.eqb sx s then x else double_zero
    | _ => x
    end.
Proof. destruct x as [[]|[]| |], s; reflexivity. Qed.

Lemma run_round_swap v1 v2 : run_round [v1; v2] = run_round [v2; v1].
Proof.
  unfold run_round, execute_transaction. cbn [fold_left].
  rewrite !double_add_zero_l.
  destruct v1 as [s1|s1| |s1 m1 e1].
  - rewrite double_add_zero_l, double_add_zero_r.
    destruct v2 as [s2|s2| |s2 m2 e2]; try reflexivity.
    by destruct s1.
  - destruct v2 as [s2|s2| |s2 m2 e2]; try apply double_add_comm.
    by rewrite double_add_zero_r.
  - destruct v2 as [s2|s2| |s2 m2 e2]; try apply double_add_comm.
    reflexivity.
  - destruct v2 as [s2|s2| |s2 m2 e2]; try apply double_add_comm.
    by rewrite double_add_zero_r.
Qed.

(** The scenario of the specification: 3.0 and 5.0 summed after the zero
    fill give 8.0, in either order. *)
Example two_patches_3_and_5 :
  run_round [d_3; d_5] = d_8 /\ run_round [d_5; d_3] = d_8.
Proof. split; vm_compute; reflexivity. Qed.

(** C5, as stated, fails: [double] addition is not associative, so with
    three contributions the result depends on the execution order; 1.0,
    2^53 and -2^53 sum to 0.0 in one order and to 1.0 in another. *)
Lemma sum_round_order_matters :
  Permutation [d_1; d_2p53; d_m2p53] [d_2p53; d_m2p53; d_1]
  /\ run_round [d_1; d_2p53; d_m2p53] = double_zero
  /\ run_round [d_2p53; d_m2p53; d_1] = d_1
  /\ run_round [d_1; d_2p53; d_m2p53] <> run_round [d_2p53; d_m2p53; d_1].
Proof.
  split; [|split; [|split]].
  - change [d_2p53; d_m2p53; d_1] with ([d_2p53; d_m2p53] ++ [d_1]).
    apply (Permutation_cons_append [d_2p53; d_m2p53] d_1).
  - vm_compute. reflexivity.
  - vm_compute. reflexivity.
  - vm_compute. discriminate.
Qed.

(** C5, amended: a round on a value shared by at most two patches, none
    of whose contributions is a NaN, yields the same [double], bit for
    bit, in every execution order of its transactions: the contribution
    added to 0.0 for one patch, the sum of the two contributions added to
    0.0 for two.  (With three or more contributions the result is the sum
    accumulated in execution order; the payload of a NaN that enters as a
    contribution is outside the model.) *)
Theorem sum_round_two_patches (contributions executed : list double) :
  (length contributions <= 2)%nat ->
  Forall (fun v => isnan v = false) contributions ->
  Permutation contributions executed ->
  run_round executed = run_round contributions
  /\ run_round executed
     = fold_left double_add contributions double_zero.
Proof.
  intros Hlen _ Hperm.
  assert (H : run_round executed = run_round contributions).
  { destruct contributions as [|a [|b [|c l]]]; simpl in Hlen; [| | |lia].
    - apply Permutation_nil in Hperm. by subst.
    - apply Permutation_length_1_inv in Hperm. by subst.
    - apply Permutation_length_2_inv in Hperm as [-> | ->]; [done|].
      apply run_round_swap. }
  split; [exact H|]. rewrite H. reflexivity.
Qed.

Lemma sum_round_two_patches_witness :
  run_round [d_5; d_3] = run_round [d_3; d_5].
Proof.
  apply (sum_round_two_patches [d_3; d_5] [d_5; d_3]).
  - simpl. lia.
  - by repeat constructor.
  - apply perm_swap.
Defined.

End Sum.


(** ** The constant refine operator *)

Section IndexArithmetic.
Import FaceConstantRefine.

(** Truncating division of a non-positive numerator, by floor division. *)
Lemma quot_nonpos_floor a r : a <= 0 -> 0 < r -> Z.quot a r - 1 = (a - 1) `div` r.
Proof.
  intros Ha Hr.
  replace a with (- (- a)) at 1 by lia.
  rewrite Z.quot_opp_l by lia. rewrite Z.quot_div_nonneg by lia.
  pose proof (Z.div_mod (- a) r ltac:(lia)) as Hdm.
  pose proof (Z.mod_pos_bound (- a) r Hr) as Hb.
  apply Z.div_unique with (r - (- a) `mod` r - 1); [lia|].
  lia.
Qed.

Lemma floor_formula_floor k r : 0 < r -> floor_formula k r = k `div` r.
Proof.
  intros Hr. unfold floor_formula.
  destruct (Z.leb_spec 0 k).
  - by apply Z.quot_div_nonneg.
  - rewrite quot_nonpos_floor by lia. f_equal. lia.
Qed.

Lemma div_in_int k r : in_int k -> 1 <= r -> in_int (k `div` r).
Proof.
  unfold in_int, int_min, int_max. intros Hk Hr.
  split.
  - apply Z.div_le_lower_bound; [lia|]. nia.
  - destruct (Z.le_gt_cases 0 k).
    + assert (k `div` r <= k) by (apply Z.div_le_upper_bound; nia). lia.
    + assert (k `div` r < 0) by (apply Z.div_lt_upper_bound; lia). lia.
Qed.

(** The arithmetic of the kernels neither overflows nor rounds toward
    zero: for an [int] index and a positive ratio, it is the formula of
    the specification and the floor of the quotient. *)
Lemma coarsen_floor k r :
  in_int k -> 1 <= r <= int_max ->
  coarsen k r = floor_formula k r /\ coarsen k r = k `div` r.
Proof.
  intros Hk Hr.
  assert (Hf : floor_formula k r = k `div` r) by (apply floor_formula_floor; lia).
  assert (Hq : in_int (k `div` r)) by (apply div_in_int; [done | lia]).
  rewrite Hf. unfold coarsen.
  revert Hf. unfold floor_formula.
  destruct (Z.ltb_spec k 0), (Z.leb_spec 0 k); try lia; intros Hf.
  - assert (Hk1 : in_int (k + 1)) by (unfold in_int, int_min, int_max in *; lia).
    rewrite (wrap_in_int (k + 1)) by done.
    assert (Hneg : k `div` r < 0) by (apply Z.div_lt_upper_bound; lia).
    assert (Hq1 : in_int (Z.quot (k + 1) r)).
    { unfold in_int, int_min, int_max in *. lia. }
    rewrite (wrap_in_int (Z.quot (k + 1) r)) by done.
    rewrite Hf. by rewrite wrap_in_int.
  - rewrite Hf. by rewrite wrap_in_int.
Qed.

(** Toward zero the two differ: the formula is needed for negative
    indices, and it is a floor only for a positive ratio. *)
Example coarsen_examples :
  coarsen (-1) 2 = -1 /\ Z.quot (-1) 2 = 0
  /\ coarsen (-4) 2 = -2 /\ coarsen (-5) 2 = -3 /\ coarsen 5 2 = 2
  /\ coarsen 1 (-2) = 0 /\ 1 `div` (-2) = -1.
Proof. vm_compute. repeat split. Qed.

(** With the ratio taken per direction the coarse index vector is
    [floor(i / r)] per axis, in the formula of the specification. *)
Lemma coarsen_face_floor dim ratio axis idx :
  ratio_wf dim ratio -> length idx = dim -> Forall in_int idx ->
  coarsen_face dim ratio axis idx = floor_index dim ratio axis idx
  /\ floor_index dim ratio axis idx
     = imap (fun k x => floor_formula x (component ratio ((axis + k) mod dim)%nat)) idx.
Proof.
  intros Hr Hlen Hin.
  assert (H : forall i x, idx !! i = Some x ->
                coarsen x (component ratio ((axis + i) mod dim)%nat)
                = floor_formula x (component ratio ((axis + i) mod dim)%nat)
                /\ coarsen x (component ratio ((axis + i) mod dim)%nat)
                   = x `div` component ratio ((axis + i) mod dim)%nat).
  { intros i x Hix. apply coarsen_floor.
    - eapply Forall_lookup_1; eauto.
    - apply Hr. apply lookup_lt_Some in Hix.
      apply Nat.mod_upper_bound. lia. }
  unfold coarsen_face, floor_index. split.
  - apply list_eq. intros i. rewrite !list_lookup_imap.
    destruct (idx !! i) as [x|] eqn:E; simpl; [|done].
    f_equal. by apply H.
  - apply list_eq. intros i. rewrite !list_lookup_imap.
    destruct (idx !! i) as [x|] eqn:E; simpl; [|done].
    f_equal. destruct (H i x E) as [H1 H2]. congruence.
Qed.

(** Where the lambdas take the ratio of the right direction: on axis 0,
    and for a ratio that is the same in every direction. *)
Lemma coarsen_vector_per_axis dim ratio axis idx :
  length idx = dim -> axis = 0%nat \/ ratio_uniform dim ratio ->
  coarsen_vector ratio idx = coarsen_face dim ratio axis idx.
Proof.
  intros Hlen Hcase. unfold coarsen_vector, coarsen_face.
  apply list_eq. intros i. rewrite !list_lookup_imap.
  destruct (idx !! i) as [x|] eqn:E; simpl; [|done].
  apply lookup_lt_Some in E. do 2 f_equal.
  destruct Hcase as [->|Hu].
  - simpl. rewrite Nat.mod_small by lia. done.
  - rewrite (Hu i) by lia. symmetry. apply Hu.
    apply Nat.mod_upper_bound. lia.
Qed.

Lemma wrap_pred_succ u : in_int u -> wrap (wrap (u - 1) + 1) = u.
Proof.
  unfold in_int, int_min, int_max, wrap. intros H.
  replace ((u - 1 + 2 ^ 31) `mod` 2 ^ 32 - 2 ^ 31 + 1 + 2 ^ 31)
    with ((u - 1 + 2 ^ 31) `mod` 2 ^ 32 + 1) by lia.
  rewrite Zplus_mod_idemp_l.
  replace (u - 1 + 2 ^ 31 + 1) with (u + 2 ^ 31) by lia.
  rewrite Z.mod_small; lia.
Qed.

End IndexArithmetic.

Section Boxes.
Import FaceConstantRefine.
#[local] Arguments wrap : simpl never.

Lemma elem_of_zrange_from x lo n :
  x ∈ zrange_from lo n <-> lo <= x < lo + Z.of_nat n.
Proof.
  revert lo. induction n as [|n IH]; intros lo; simpl.
  - rewrite elem_of_nil. lia.
  - rewrite elem_of_cons, IH. lia.
Qed.

Lemma elem_of_zrange x lo hi : x ∈ zrange lo hi <-> lo <= x <= hi.
Proof. unfold zrange. rewrite elem_of_zrange_from. lia. Qed.

Lemma elem_of_box_points_cons idx l lo h hi :
  idx ∈ box_points (l :: lo) (h :: hi)
  <-> exists x rest, idx = x :: rest /\ l <= x <= h /\ rest ∈ box_points lo hi.
Proof.
  simpl. rewrite list_elem_of_bind. split.
  - intros (x & Hidx & Hx). apply list_elem_of_fmap in Hidx as (rest & -> & Hrest).
    exists x, rest. by rewrite <- elem_of_zrange.
  - intros (x & rest & -> & Hx & Hrest). exists x. split.
    + apply list_elem_of_fmap. by exists rest.
    + by apply elem_of_zrange.
Qed.

(** The cells of a box: the index vectors between its corners. *)
Lemma elem_of_box_points idx lo hi :
  length lo = length hi ->
  idx ∈ box_points lo hi
  <-> length idx = length lo
      /\ forall i x l h, idx !! i = Some x -> lo !! i = Some l -> hi !! i = Some h ->
                         l <= x <= h.
Proof.
  revert hi idx. induction lo as [|l lo IH]; intros [|h hi] idx Hlen;
    try discriminate.
  - simpl. rewrite list_elem_of_singleton. split.
    + intros ->. split; [done|]. intros i x l h Hx. by rewrite lookup_nil in Hx.
    + intros [Hl _]. by destruct idx.
  - injection Hlen as Hlen. rewrite elem_of_box_points_cons. split.
    + intros (x & rest & -> & Hx & Hrest).
      apply IH in Hrest as [Hl Hb]; [|done]. split; [simpl; lia|].
      intros [|i] y l' h'; simpl.
      * intros [= <-] [= <-] [= <-]. done.
      * apply Hb.
    + intros [Hl Hb]. destruct idx as [|x rest]; [discriminate|].
      exists x, rest. split; [done|]. split.
      * by apply (Hb 0%nat x l h).
      * apply IH; [done|]. split; [simpl in Hl; lia|].
        intros i y l' h'. apply (Hb (S i)).
Qed.

Lemma box_points_in_int idx lo hi :
  length lo = length hi -> Forall in_int lo -> Forall in_int hi ->
  idx ∈ box_points lo hi -> Forall in_int idx.
Proof.
  intros Hlen Hlo Hhi Hin. apply elem_of_box_points in Hin as [Hl Hb]; [|done].
  apply Forall_lookup_2. intros i x Hx.
  destruct (lookup_lt_is_Some_2 lo i) as [l Hl'];
    [apply lookup_lt_Some in Hx; lia|].
  destruct (lookup_lt_is_Some_2 hi i) as [h Hh'];
    [apply lookup_lt_Some in Hx; lia|].
  pose proof (Hb i x l h Hx Hl' Hh').
  pose proof (Forall_lookup_1 _ _ _ _ Hlo Hl').
  pose proof (Forall_lookup_1 _ _ _ _ Hhi Hh').
  unfold in_int in *. lia.
Qed.

Lemma setLower_length i v b :
  length (box_lo (setLower i v b)) = length (box_lo b)
  /\ length (box_hi (setLower i v b)) = length (box_hi b).
Proof. unfold setLower. cbn [box_lo box_hi]. split; [apply length_insert | done]. Qed.

Lemma setUpper_length i v b :
  length (box_lo (setUpper i v b)) = length (box_lo b)
  /\ length (box_hi (setUpper i v b)) = length (box_hi b).
Proof. unfold setUpper. cbn [box_lo box_hi]. split; [done | apply length_insert]. Qed.

(** The rebuilt cell box always has the dimension of the patch. *)
Lemma fine_box_of_length dim axis face_box :
  length (box_lo (fine_box_of dim axis face_box)) = dim
  /\ length (box_hi (fine_box_of dim axis face_box)) = dim.
Proof.
  unfold fine_box_of.
  assert (H : forall l b,
             length (box_lo b) = dim /\ length (box_hi b) = dim ->
             let b' := fold_left
                         (fun fb i =>
                            setUpper ((axis + i) mod dim)%nat (upper face_box i)
                              (setLower ((axis + i) mod dim)%nat (lower face_box i) fb))
                         l b in
             length (box_lo b') = dim /\ length (box_hi b') = dim).
  { induction l as [|i l IH]; intros b Hb; simpl; [done|].
    apply IH.
    destruct (setUpper_length ((axis + i) mod dim)%nat (upper face_box i)
                (setLower ((axis + i) mod dim)%nat (lower face_box i) b)) as [-> ->].
    by destruct (setLower_length ((axis + i) mod dim)%nat (lower face_box i) b)
      as [-> ->]. }
  specialize (H (seq 0 dim) (Box_of_dim dim)).
  simpl in H. rewrite !length_replicate in H. specialize (H (conj eq_refl eq_refl)).
  match goal with
  | |- context [setUpper ?i ?v ?b] =>
      destruct (setUpper_length i v b) as [-> ->]
  end.
  exact H.
Qed.

Lemma face_box_of_length dim axis fine_box :
  length (box_lo (face_box_of dim axis fine_box)) = dim
  /\ length (box_hi (face_box_of dim axis fine_box)) = dim.
Proof.
  unfold face_box_of, growUpper.
  match goal with
  | |- context [setUpper ?i ?v ?b] =>
      destruct (setUpper_length i v b) as [-> ->]
  end.
  cbn [box_lo box_hi]. by rewrite !length_fmap, !length_seq.
Qed.

(** In two and three dimensions the box of the data-parallel loop is the
    box of faces the scalar kernels visit. *)
Lemma fine_box_plus_2d_faces axis fine_box :
  length (box_lo fine_box) = 2%nat -> length (box_hi fine_box) = 2%nat ->
  (axis < 2)%nat ->
  box_lo (fine_box_plus_2d axis fine_box) = box_lo (face_box_of 2%nat axis fine_box)
  /\ box_hi (fine_box_plus_2d axis fine_box) = box_hi (face_box_of 2%nat axis fine_box).
Proof.
  destruct fine_box as [dim [|a [|b [|? ?]]] [|c [|d [|? ?]]] id]; try discriminate.
  intros _ _ Haxis.
  destruct axis as [|[|axis]]; [| |lia]; split; reflexivity.
Qed.

Lemma fine_box_plus_3d_faces axis fine_box :
  length (box_lo fine_box) = 3%nat -> length (box_hi fine_box) = 3%nat ->
  (axis < 3)%nat ->
  box_lo (fine_box_plus_3d axis fine_box) = box_lo (face_box_of 3%nat axis fine_box)
  /\ box_hi (fine_box_plus_3d axis fine_box) = box_hi (face_box_of 3%nat axis fine_box).
Proof.
  destruct fine_box as [dim [|a [|b [|c [|? ?]]]] [|d [|e [|f [|? ?]]]] id];
    try discriminate.
  intros _ _ Haxis.
  destruct axis as [|[|[|axis]]]; [| | |lia]; split; reflexivity.
Qed.

(** The faces visited for a destination box of the overlap are the faces
    of that box: the cell box is rebuilt from it and the layer of faces
    along the axis is put back. *)
Lemma destination_faces_of_box dim axis face_box :
  (1 <= dim <= 3)%nat -> (axis < dim)%nat -> box_wf dim face_box ->
  destination_faces dim axis face_box
  = box_points (box_lo face_box) (box_hi face_box).
Proof.
  intros Hdim Haxis (Hlo & Hhi & Hilo & Hihi).
  unfold destination_faces.
  destruct face_box as [bd lo hi id]. simpl in *.
  assert (Hup : forall u, in_int u -> wrap (wrap (u - 1) + 1) = u)
    by apply wrap_pred_succ.
  destruct dim as [|[|[|[|dim]]]]; try lia.
  - destruct lo as [|a [|? ?]], hi as [|c [|? ?]]; try discriminate.
    destruct axis as [|axis]; [|lia].
    apply Forall_cons in Hihi as [Hc _].
    unfold face_box_of, fine_box_of, growUpper, setUpper, setLower, upper, lower,
      component. simpl. by rewrite (Hup c Hc).
  - destruct lo as [|a [|b [|? ?]]], hi as [|c [|d [|? ?]]]; try discriminate.
    apply Forall_cons in Hihi as [Hc Hihi]. apply Forall_cons in Hihi as [Hd _].
    destruct axis as [|[|axis]]; [| |lia];
      unfold face_box_of, fine_box_of, growUpper, setUpper, setLower, upper, lower,
        component; simpl; by rewrite (Hup c Hc).
  - destruct lo as [|a [|b [|c0 [|? ?]]]], hi as [|c [|d [|e [|? ?]]]]; try discriminate.
    apply Forall_cons in Hihi as [Hc Hihi].
    destruct axis as [|[|[|axis]]]; [| | |lia];
      unfold face_box_of, fine_box_of, growUpper, setUpper, setLower, upper, lower,
        component; simpl; by rewrite (Hup c Hc).
Qed.

End Boxes.

Section Kernels.
Import FaceConstantRefine.
Context {T : Type}.
Implicit Types (coarse fine : array T) (idx : Index) (ratio : IntVector).

Lemma fold_left_ext_in {A B} (f g : A -> B -> A) (l : list B) (s : A) :
  (forall x s, x ∈ l -> f s x = g s x) -> fold_left f l s = fold_left g l s.
Proof.
  revert s. induction l as [|x l IH]; intros s H; simpl; [done|].
  rewrite H by (by left). apply IH. intros y t Hy. apply H. by right.
Qed.

(** Writing the coarse values over a list of faces, in any order and with
    any repetition: the listed faces hold their coarse value, the others
    what they held. *)
Lemma fold_write coarse (source : Index -> Index) (l : list Index) fine idx :
  fold_left (fun acc i => array_set acc i (coarse (source i))) l fine idx
  = if decide (idx ∈ l) then coarse (source idx) else fine idx.
Proof.
  revert fine. induction l as [|a l IH]; intros fine; cbn [fold_left].
  - rewrite decide_False; [done | apply not_elem_of_nil].
  - rewrite IH. unfold array_set.
    destruct (decide (idx ∈ l)) as [Hl|Hl].
    + rewrite decide_True by (by right). done.
    + destruct (decide (idx = a)) as [->|Hne].
      * rewrite decide_True by (by left). done.
      * rewrite decide_False; [done|]. rewrite elem_of_cons. tauto.
Qed.

Lemma refine_body_2d_write ratio coarse idx fine :
  length idx = 2%nat ->
  refine_body_2d (component ratio 0) (component ratio 1) coarse idx fine
  = array_set fine idx (coarse (coarsen_vector ratio idx)).
Proof. destruct idx as [|j [|k [|? ?]]]; try discriminate. reflexivity. Qed.

Lemma refine_body_3d_write ratio coarse idx fine :
  length idx = 3%nat ->
  refine_body_3d (component ratio 0) (component ratio 1) (component ratio 2)
    coarse idx fine
  = array_set fine idx (coarse (coarsen_vector ratio idx)).
Proof. destruct idx as [|i [|j [|k [|? ?]]]]; try discriminate. reflexivity. Qed.

Lemma box_points_length idx lo hi :
  length lo = length hi -> idx ∈ box_points lo hi -> length idx = length lo.
Proof. intros Hlen Hin. by apply elem_of_box_points in Hin as [? _]. Qed.

(** The 2D data-parallel loop, whatever the execution order. *)
Lemma parallel_refine_2d schedule box ratio coarse fine idx :
  schedule_wf schedule ->
  length (box_lo box) = 2%nat -> length (box_hi box) = 2%nat ->
  parallel_for_all schedule box
    (refine_body_2d (component ratio 0) (component ratio 1) coarse) fine idx
  = if decide (idx ∈ box_points (box_lo box) (box_hi box))
    then coarse (coarsen_vector ratio idx) else fine idx.
Proof.
  intros Hs Hlo Hhi. unfold parallel_for_all.
  rewrite (fold_left_ext_in _
             (fun acc i => array_set acc i (coarse (coarsen_vector ratio i)))).
  - rewrite (fold_write coarse (coarsen_vector ratio)).
    apply decide_ext. by rewrite (Hs _).
  - intros i acc Hi. apply refine_body_2d_write.
    rewrite (Hs _) in Hi. apply box_points_length in Hi; congruence.
Qed.

(** The 3D data-parallel loop, whatever the execution order. *)
Lemma parallel_refine_3d schedule box ratio coarse fine idx :
  schedule_wf schedule ->
  length (box_lo box) = 3%nat -> length (box_hi box) = 3%nat ->
  parallel_for_all schedule box
    (refine_body_3d (component ratio 0) (component ratio 1) (component ratio 2) coarse)
    fine idx
  = if decide (idx ∈ box_points (box_lo box) (box_hi box))
    then coarse (coarsen_vector ratio idx) else fine idx.
Proof.
  intros Hs Hlo Hhi. unfold parallel_for_all.
  rewrite (fold_left_ext_in _
             (fun acc i => array_set acc i (coarse (coarsen_vector ratio i)))).
  - rewrite (fold_write coarse (coarsen_vector ratio)).
    apply decide_ext. by rewrite (Hs _).
  - intros i acc Hi. apply refine_body_3d_write.
    rewrite (Hs _) in Hi. apply box_points_length in Hi; congruence.
Qed.

Variable cfg : Build.
Variable schedule : list Index -> list Index.
Hypothesis schedule_once : schedule_wf schedule.

(** One destination box, one depth component, in one to three dimensions
    and on either path: the faces of the box receive their coarse value
    in the array of the axis and depth, and nothing else changes. *)
Lemma refine_depth_Ok dim (cdata : FaceData T) ratio axis face_box d (fdata : arrays) :
  (1 <= dim <= 3)%nat -> (axis < dim)%nat ->
  exists fdata' : arrays,
    refine_depth cfg schedule dim cdata ratio axis (fine_box_of dim axis face_box) d fdata
    = Ok fdata'
    /\ forall a' d' idx,
         fdata' a' d' idx
         = if decide (a' = axis /\ d' = d /\ idx ∈ destination_faces dim axis face_box)
           then coarse_value cfg dim cdata ratio axis d idx
           else fdata a' d' idx.
Proof.
  intros Hdim Haxis.
  destruct (fine_box_of_length dim axis face_box) as [Hlo Hhi].
  set (fine_box := fine_box_of dim axis face_box) in *.
  assert (Hscalar : forall a' d' idx,
             set_view fdata axis d
               (CallFortranFace dim axis fine_box ratio
                  (view (face_array cdata) axis d) (view fdata axis d)) a' d' idx
             = if decide (a' = axis /\ d' = d
                          /\ idx ∈ destination_faces dim axis face_box)
               then face_array cdata axis d (coarsen_face dim ratio axis idx)
               else fdata a' d' idx).
  { intros a' d' idx. unfold set_view, CallFortranFace, view.
    destruct (decide (a' = axis /\ d' = d)) as [[-> ->]|Hne].
    - rewrite (fold_write _ (coarsen_face dim ratio axis)).
      apply decide_ext. unfold destination_faces.
      fold fine_box. tauto.
    - rewrite decide_False by tauto. done. }
  unfold refine_depth, coarse_value, source_index.
  destruct (decide (dim = 1%nat)) as [->|H1].
  { change (2 <=? 1)%nat with false. rewrite andb_false_r.
    eexists; split; [reflexivity|exact Hscalar]. }
  destruct (decide (dim = 2%nat)) as [->|H2].
  { destruct (have_raja cfg); cbn [andb Nat.leb];
      [|eexists; split; [reflexivity|exact Hscalar]].
    eexists. split; [reflexivity|].
    destruct (fine_box_plus_2d_faces axis fine_box Hlo Hhi Haxis) as [Elo Ehi].
    intros a' d' idx. unfold set_view, view.
    destruct (decide (a' = axis /\ d' = d)) as [[-> ->]|Hne].
    - rewrite parallel_refine_2d;
        [| done | rewrite Elo; apply face_box_of_length
           | rewrite Ehi; apply face_box_of_length].
      rewrite Elo, Ehi. apply decide_ext. unfold destination_faces.
      fold fine_box. tauto.
    - rewrite decide_False by tauto. done. }
  destruct (decide (dim = 3%nat)) as [->|H3]; [|lia].
  destruct (have_raja cfg); cbn [andb Nat.leb];
    [|eexists; split; [reflexivity|exact Hscalar]].
  eexists. split; [reflexivity|].
  destruct (fine_box_plus_3d_faces axis fine_box Hlo Hhi Haxis) as [Elo Ehi].
  intros a' d' idx. unfold set_view, view.
  destruct (decide (a' = axis /\ d' = d)) as [[-> ->]|Hne].
  - rewrite parallel_refine_3d;
      [| done | rewrite Elo; apply face_box_of_length
         | rewrite Ehi; apply face_box_of_length].
    rewrite Elo, Ehi. apply decide_ext. unfold destination_faces.
    fold fine_box. tauto.
  - rewrite decide_False by tauto. done.
Qed.

End Kernels.

Section RefineLoops.
Import FaceConstantRefine.
Context {T : Type}.
Variable cfg : Build.
Variable schedule : list Index -> list Index.
Hypothesis schedule_once : schedule_wf schedule.
Variable dim : Dimension.
Variable cdata : FaceData T.
Variable ratio : IntVector.
Hypothesis dim_supported : (1 <= dim <= 3)%nat.

(** A face of the fine arrays holds its coarse value. *)
Let refined (a d : nat) (idx : Index) (fdata : arrays) : Prop :=
  fdata a d idx = coarse_value cfg dim cdata ratio a d idx.

Lemma refine_depth_keeps axis face_box d0 (fdata fdata' : arrays) a d idx :
  (axis < dim)%nat ->
  refine_depth cfg schedule dim cdata ratio axis (fine_box_of dim axis face_box) d0 fdata
  = Ok fdata' ->
  refined a d idx fdata -> refined a d idx fdata'.
Proof.
  intros Haxis Hrun Hpost.
  destruct (refine_depth_Ok cfg schedule schedule_once dim cdata ratio axis face_box
              d0 fdata dim_supported Haxis) as (f'' & Hrun' & Hval).
  rewrite Hrun in Hrun'. injection Hrun' as <-.
  unfold refined. rewrite Hval.
  case_decide as Hc; [|exact Hpost]. by destruct Hc as (-> & -> & _).
Qed.

Lemma refine_depth_establishes axis face_box d (fdata fdata' : arrays) idx :
  (axis < dim)%nat ->
  idx ∈ destination_faces dim axis face_box ->
  refine_depth cfg schedule dim cdata ratio axis (fine_box_of dim axis face_box) d fdata
  = Ok fdata' ->
  refined axis d idx fdata'.
Proof.
  intros Haxis Hidx Hrun.
  destruct (refine_depth_Ok cfg schedule schedule_once dim cdata ratio axis face_box
              d fdata dim_supported Haxis) as (f'' & Hrun' & Hval).
  rewrite Hrun in Hrun'. injection Hrun' as <-.
  unfold refined. rewrite Hval. by rewrite decide_True.
Qed.

Lemma refine_box_keeps depth axis face_box (fdata fdata' : arrays) a d idx :
  (axis < dim)%nat ->
  refine_box cfg schedule dim cdata depth ratio axis face_box fdata = Ok fdata' ->
  refined a d idx fdata -> refined a d idx fdata'.
Proof.
  intros Haxis Hrun. unfold refine_box in Hrun.
  apply mbind_Ok in Hrun as (u & _ & Hrun).
  eapply for_each_invariant; [|exact Hrun].
  intros d0 s s' _ Hstep. by eapply refine_depth_keeps.
Qed.

Lemma refine_box_establishes depth axis face_box (fdata fdata' : arrays) d idx :
  (axis < dim)%nat -> (d < Z.to_nat depth)%nat ->
  idx ∈ destination_faces dim axis face_box ->
  refine_box cfg schedule dim cdata depth ratio axis face_box fdata = Ok fdata' ->
  refined axis d idx fdata'.
Proof.
  intros Haxis Hd Hidx Hrun. unfold refine_box in Hrun.
  apply mbind_Ok in Hrun as (u & _ & Hrun).
  eapply (for_each_establishes _ (refined axis d idx) _ d); [| | |exact Hrun].
  - apply elem_of_seq. lia.
  - intros s s' Hstep.
    eapply refine_depth_establishes; [exact Haxis | exact Hidx | exact Hstep].
  - intros d0 s s' _ Hstep. by eapply refine_depth_keeps.
Qed.

Lemma refine_axis_keeps depth boxes axis (fdata fdata' : arrays) a d idx :
  (axis < dim)%nat ->
  refine_axis cfg schedule dim cdata depth ratio boxes axis fdata = Ok fdata' ->
  refined a d idx fdata -> refined a d idx fdata'.
Proof.
  intros Haxis Hrun. unfold refine_axis in Hrun.
  eapply for_each_invariant; [|exact Hrun].
  intros b s s' _ Hstep. by eapply refine_box_keeps.
Qed.

Lemma refine_axis_establishes depth boxes axis face_box (fdata fdata' : arrays) d idx :
  (axis < dim)%nat -> (d < Z.to_nat depth)%nat ->
  face_box ∈ getDestinationBoxContainer boxes axis ->
  idx ∈ destination_faces dim axis face_box ->
  refine_axis cfg schedule dim cdata depth ratio boxes axis fdata = Ok fdata' ->
  refined axis d idx fdata'.
Proof.
  intros Haxis Hd Hbox Hidx Hrun. unfold refine_axis in Hrun.
  eapply (for_each_establishes _ (refined axis d idx) _ face_box);
    [exact Hbox | | |exact Hrun].
  - intros s s' Hstep.
    eapply refine_box_establishes; [exact Haxis | exact Hd | exact Hidx | exact Hstep].
  - intros b s s' _ Hstep. by eapply refine_box_keeps.
Qed.

(** The three nested loops of [refine]: every face of every destination
    box, for every depth component, ends with its coarse value. *)
Lemma refine_loops_establish depth boxes axis face_box (fdata fdata' : arrays) d idx :
  (axis < dim)%nat -> (d < Z.to_nat depth)%nat ->
  face_box ∈ getDestinationBoxContainer boxes axis ->
  idx ∈ destination_faces dim axis face_box ->
  for_each (refine_axis cfg schedule dim cdata depth ratio boxes) (seq 0 dim) fdata
  = Ok fdata' ->
  fdata' axis d idx = coarse_value cfg dim cdata ratio axis d idx.
Proof.
  intros Haxis Hd Hbox Hidx Hrun.
  eapply (for_each_establishes _ (refined axis d idx) _ axis); [| | |exact Hrun].
  - apply elem_of_seq. lia.
  - intros s s' Hstep.
    eapply refine_axis_establishes;
      [exact Haxis | exact Hd | exact Hbox | exact Hidx | exact Hstep].
  - intros a s s' Ha Hstep. eapply refine_axis_keeps; [|exact Hstep].
    apply elem_of_seq in Ha. lia.
Qed.

End RefineLoops.

Section RefineCall.
Import FaceConstantRefine.
Context {T : Type}.

(** What a call of [refine] that returns has gone through. *)
Lemma refine_Ok_inv cfg schedule (fine coarse fine' : Patch T) dst src ov ratio :
  refine cfg schedule fine coarse dst src ov ratio = Ok fine' ->
  exists cdata fdata boxes a,
    as_FaceData (getPatchData coarse src) = Some cdata
    /\ as_FaceData (getPatchData fine dst) = Some fdata
    /\ as_FaceOverlap ov = Some boxes
    /\ for_each (refine_axis cfg schedule (patch_dim fine) cdata (face_depth fdata)
                   ratio boxes) (seq 0 (patch_dim fine)) (face_array fdata) = Ok a
    /\ fine' = setPatchData fine dst
                 (FaceDataOf {| face_depth := face_depth fdata;
                                face_ghost_box := face_ghost_box fdata;
                                face_array := a |}).
Proof.
  unfold refine. intros H.
  do 5 (apply mbind_Ok in H as (? & _ & H)).
  apply mbind_Ok in H as (c & Hc & H).
  apply mbind_Ok in H as (f & Hf & H).
  apply mbind_Ok in H as (o & Ho & H).
  apply mbind_Ok in H as (a & Ha & H).
  injection H as <-.
  destruct (as_FaceData (getPatchData coarse src)) as [c'|]; [|discriminate].
  destruct (as_FaceData (getPatchData fine dst)) as [f'|]; [|discriminate].
  destruct (as_FaceOverlap ov) as [o'|]; [|discriminate].
  injection Hc as ->. injection Hf as ->. injection Ho as ->.
  by exists c, f, o, a.
Qed.

Lemma as_FaceData_Some (pd : option (PatchData T)) f :
  as_FaceData pd = Some f -> pd = Some (FaceDataOf f).
Proof. destruct pd as [[| |]|]; simpl; congruence. Qed.

(** The value [refine] leaves at a destination face, on either path and
    for any execution order of the data-parallel loop. *)
Lemma refine_destination_value cfg schedule (fine coarse fine' : Patch T)
    dst src ov ratio :
  schedule_wf schedule ->
  (1 <= patch_dim fine <= 3)%nat ->
  refine cfg schedule fine coarse dst src ov ratio = Ok fine' ->
  exists cdata fdata' boxes,
    as_FaceData (getPatchData coarse src) = Some cdata
    /\ getPatchData fine' dst = Some (FaceDataOf fdata')
    /\ as_FaceOverlap ov = Some boxes
    /\ forall axis face_box d idx,
         (axis < patch_dim fine)%nat ->
         face_box ∈ getDestinationBoxContainer boxes axis ->
         (d < Z.to_nat (face_depth fdata'))%nat ->
         idx ∈ destination_faces (patch_dim fine) axis face_box ->
         face_array fdata' axis d idx
         = coarse_value cfg (patch_dim fine) cdata ratio axis d idx.
Proof.
  intros Hs Hdim H.
  apply refine_Ok_inv in H as (c & f & boxes & a & Hc & Hf & Ho & Hloop & ->).
  eexists c, _, boxes. split; [exact Hc|]. split; [|split; [exact Ho|]].
  - apply getPatchData_set. apply as_FaceData_Some in Hf. by eapply getPatchData_lt.
  - intros axis face_box d idx Haxis Hbox Hd Hidx. simpl in *.
    by eapply refine_loops_establish.
Qed.

(** Where the fine value is the coarse value at [floor(idx / ratio)] per
    axis: in one to three dimensions, for every destination box of the
    overlap and every face index vector [idx] of the box, on the scalar
    path always, and on the data-parallel path for the faces of axis 0
    and for a ratio that is the same in every direction.  Each component
    of the floor is [index >= 0 ? index/ratio : (index+1)/ratio - 1],
    which for a (positive) ratio is the quotient rounded toward negative
    infinity. *)
Lemma refine_per_axis_floor cfg schedule (fine coarse fine' : Patch T)
    dst src ov ratio :
  schedule_wf schedule ->
  (1 <= patch_dim fine <= 3)%nat ->
  ratio_wf (patch_dim fine) ratio ->
  refine cfg schedule fine coarse dst src ov ratio = Ok fine' ->
  exists cdata fdata' boxes,
    as_FaceData (getPatchData coarse src) = Some cdata
    /\ getPatchData fine' dst = Some (FaceDataOf fdata')
    /\ as_FaceOverlap ov = Some boxes
    /\ forall axis face_box d idx,
         (axis < patch_dim fine)%nat ->
         face_box ∈ getDestinationBoxContainer boxes axis ->
         box_wf (patch_dim fine) face_box ->
         (d < Z.to_nat (face_depth fdata'))%nat ->
         idx ∈ box_points (box_lo face_box) (box_hi face_box) ->
         floor_index (patch_dim fine) ratio axis idx
         = imap (fun k x =>
                   floor_formula x
                     (component ratio ((axis + k) mod patch_dim fine)%nat)) idx
         /\ (have_raja cfg = false \/ patch_dim fine = 1%nat \/ axis = 0%nat
             \/ ratio_uniform (patch_dim fine) ratio ->
             face_array fdata' axis d idx
             = face_array cdata axis d (floor_index (patch_dim fine) ratio axis idx)).
Proof.
  intros Hs Hdim Hratio H.
  destruct (refine_destination_value cfg schedule fine coarse fine' dst src ov ratio
              Hs Hdim H) as (cdata & fdata' & boxes & Hc & Hf & Ho & Hval).
  exists cdata, fdata', boxes. split; [exact Hc|]. split; [exact Hf|].
  split; [exact Ho|].
  intros axis face_box d idx Haxis Hbox Hwf Hd Hidx.
  pose proof Hwf as (Hlo & Hhi & Hilo & Hihi).
  assert (Hlen : length idx = patch_dim fine).
  { apply box_points_length in Hidx; congruence. }
  assert (Hint : Forall in_int idx).
  { eapply box_points_in_int; [| | |exact Hidx]; [congruence|done|done]. }
  destruct (coarsen_face_floor (patch_dim fine) ratio axis idx Hratio Hlen Hint)
    as [Efloor Eformula].
  assert (Hfaces : idx ∈ destination_faces (patch_dim fine) axis face_box).
  { by rewrite destination_faces_of_box. }
  split; [exact Eformula|]. intros Hcase.
  rewrite (Hval axis face_box d idx Haxis Hbox Hd Hfaces).
  unfold coarse_value, source_index. rewrite <- Efloor.
  destruct (have_raja cfg && (2 <=? patch_dim fine)%nat) eqn:Hpath; [|done].
  apply andb_true_iff in Hpath as [Hraja Hdim2]. apply Nat.leb_le in Hdim2.
  rewrite (coarsen_vector_per_axis (patch_dim fine) ratio axis idx Hlen); [done|].
  destruct Hcase as [Hc0|[Hc1|[Hc2|Hc3]]]; [congruence | lia | by left | by right].
Qed.

End RefineCall.

Section RefineFailures.
Import FaceConstantRefine.
Context {T : Type}.
Variable cfg : Build.
Variable schedule : list Index -> list Index.

Lemma for_each_Err {A S} (body : A -> S -> result S) l s e :
  for_each body l s = Err e -> exists a s0, a ∈ l /\ body a s0 = Err e.
Proof.
  revert s. induction l as [|a l IH]; intros s H; simpl in H; [discriminate|].
  destruct (body a s) as [s1|e1] eqn:E; simpl in H.
  - destruct (IH s1 H) as (b & s0 & Hb & Hrun). exists b, s0. split; [by right|done].
  - injection H as ->. exists a, s. split; [by left|done].
Qed.









Lemma setPatchData_same (p : Patch T) n (f : FaceData T) :
  getPatchData p n = Some (FaceDataOf f) ->
  setPatchData p n
    (FaceDataOf {| face_depth := face_depth f; face_ghost_box := face_ghost_box f;
                   face_array := face_array f |}) = p.
Proof.
  intros H. destruct p as [pd data], f as [fd fg fa]. unfold setPatchData. simpl.
  f_equal. apply list_insert_id.
  unfold getPatchData in H. simpl in H.
  destruct (data !! n) as [[x|]|]; simpl in H; congruence.
Qed.

(** [refine] once its preconditions hold: the loops over the overlap. *)
Lemma refine_unfold (fine coarse : Patch T) dst src boxes ratio cdata fdata :
  getPatchData coarse src = Some (FaceDataOf cdata) ->
  getPatchData fine dst = Some (FaceDataOf fdata) ->
  face_depth cdata = face_depth fdata ->
  refine_dimensions_agree fine coarse ratio ->
  refine cfg schedule fine coarse dst src (FaceOverlapOf boxes) ratio
  = a ← for_each (refine_axis cfg schedule (patch_dim fine) cdata (face_depth fdata)
                    ratio boxes) (seq 0 (patch_dim fine)) (face_array fdata);
    Ok (setPatchData fine dst
          (FaceDataOf {| face_depth := face_depth fdata;
                         face_ghost_box := face_ghost_box fdata;
                         face_array := a |})).
Proof.
  intros Hc Hf Hdepth [Hd1 Hd2]. unfold refine. rewrite Hc, Hf. simpl.
  apply Z.eqb_eq in Hdepth. rewrite Hdepth.
  rewrite !bool_decide_eq_true_2 by done. simpl.
  rewrite !TBOX_ASSERT_true, TBOX_DIM_ASSERT_true. reflexivity.
Qed.

End RefineFailures.

Section RefineContract.
Import FaceConstantRefine OuternodeSumTransactionFactory.

Lemma sequential_wf : schedule_wf sequential.
Proof. intros cells. reflexivity. Qed.

Lemma for_each_Ok_each {A S} (body : A -> S -> result S) l s s' a :
  for_each body l s = Ok s' -> a ∈ l -> exists s0 s1, body a s0 = Ok s1.
Proof.
  revert s. induction l as [|b l IH]; intros s H Ha; [by apply elem_of_nil in Ha|].
  simpl in H. apply bind_Ok in H as (s1 & H1 & H2).
  apply elem_of_cons in Ha as [->|Ha]; [by exists s, s1 | by eapply IH].
Qed.

Lemma for_each_total {A S} (body : A -> S -> result S) l s :
  (forall a s, a ∈ l -> exists s', body a s = Ok s') ->
  exists s', for_each body l s = Ok s'.
Proof.
  revert s. induction l as [|a l IH]; intros s H; simpl; [by exists s|].
  destruct (H a s) as (s1 & ->); [by left|]. simpl.
  apply IH. intros b t Hb. apply H. by right.
Qed.

(** C1 does not hold of the code: the lambdas of the data-parallel
    kernels divide the first component of the index vector by [ratio[0]]
    and the second by [ratio[1]] on every axis, although on axis 1 the
    first component runs along direction 1 (the box of the loop is
    transposed for it, the ratio is not).  With the ratio (2, 4), the face
    (5, 1) of axis 1, at index 5 along direction 1 and 1 along direction
    0, receives the coarse face (2, 0), that is (5/2, 1/4), in sequential
    and in reversed execution order; [floor(i / r)] per axis is (1, 0),
    that is (5/4, 1/2), and that is the coarse face the scalar path
    assigns.  The two paths differ on this input. *)
Theorem refine_ratio_not_permuted :
  [5; 1] ∈ box_points (box_lo sample_face_box_axis_1) (box_hi sample_face_box_axis_1)
  /\ floor_index 2 [2; 4] 1 [5; 1] = [1; 0]
  /\ coarse_values 1 0 [2; 0] <> coarse_values 1 0 [1; 0]
  /\ (exists fine' fdata',
        refine debug_build sequential (sample_fine 2) (sample_coarse 2) 0 0
          sample_overlap_axis_1 [2; 4] = Ok fine'
        /\ getPatchData fine' 0 = Some (FaceDataOf fdata')
        /\ face_array fdata' 1 0 [5; 1] = coarse_values 1 0 [2; 0])
  /\ (exists fine' fdata',
        refine debug_build reversed (sample_fine 2) (sample_coarse 2) 0 0
          sample_overlap_axis_1 [2; 4] = Ok fine'
        /\ getPatchData fine' 0 = Some (FaceDataOf fdata')
        /\ face_array fdata' 1 0 [5; 1] = coarse_values 1 0 [2; 0])
  /\ (exists fine' fdata',
        refine scalar_build sequential (sample_fine 2) (sample_coarse 2) 0 0
          sample_overlap_axis_1 [2; 4] = Ok fine'
        /\ getPatchData fine' 0 = Some (FaceDataOf fdata')
        /\ face_array fdata' 1 0 [5; 1] = coarse_values 1 0 [1; 0]).
Proof.
  split; [vm_compute; do 3 right; left|].
  split; [reflexivity|]. split; [discriminate|].
  split; [|split]; eexists _, _;
    (split; [reflexivity|]; split; reflexivity).
Qed.







Lemma preprocessScratchSpace_zero_fills_witness :
  exists lv,
    Some sample_level = Some lv
    /\ length (level_patches sample_level_zeroed) = length (level_patches lv)
    /\ forall i patch,
         level_patches lv !! i = Some patch ->
         exists patch',
           level_patches sample_level_zeroed !! i = Some patch'
           /\ forall n, isSet select_first n = true ->
                exists o o',
                  getPatchData patch n = Some (OuternodeDataOf o)
                  /\ getPatchData patch' n = Some (OuternodeDataOf o')
                  /\ length (outernode_values o') = length (outernode_values o)
                  /\ Forall (fun v => v = double_zero) (outernode_values o').
Proof.
  apply (proj2 (preprocessScratchSpace_zero_fills debug_build (Some sample_level) d_1
                  select_first) sample_level_zeroed).
  reflexivity.
Defined.

Lemma preprocessScratchSpace_frame_witness :
  preprocessScratchSpace debug_build (Some sample_level) d_8 select_first
  = Ok sample_level_zeroed.
Proof.
  apply (preprocessScratchSpace_frame debug_build (Some sample_level) d_1
           select_first sample_level_zeroed).
  reflexivity.
Defined.

End RefineContract.


(** * Further properties of the embedded code *)

(** ** Identifiers *)

(** X1: an identifier built from a non-negative [int] stores that value
    unchanged, whichever 32-bit type the member has, and is never the
    invalid identifier: for [PeriodicId] with any non-negative value, for
    [BlockId] with any value below the maximum [int]. *)
Theorem valid_ids_are_not_invalid ty v :
  0 <= v <= int_max ->
  BlockId.make ty v = v
  /\ PeriodicId.make ty v = v
  /\ PeriodicId.make ty v <> PeriodicId.s_invalid_id ty
  /\ (v < int_max -> BlockId.make ty v <> BlockId.s_invalid_id ty).
Proof.
  unfold int_max. intros Hv.
  assert (Hmake : convert ty v = v).
  { destruct ty; simpl.
    - apply wrap_in_int. unfold in_int, int_min, int_max. lia.
    - apply Z.mod_small. lia. }
  unfold BlockId.make, PeriodicId.make, BlockId.s_invalid_id, PeriodicId.s_invalid_id,
    BlockId.make, PeriodicId.make. rewrite Hmake.
  split; [done|]. split; [done|]. split.
  - destruct ty; vm_compute convert; lia.
  - intros Hlt. destruct ty; vm_compute convert; lia.
Qed.

Lemma valid_ids_are_not_invalid_witness :
  BlockId.make UnsignedInt 3 = 3
  /\ PeriodicId.make UnsignedInt 3 <> PeriodicId.s_invalid_id UnsignedInt.
Proof.
  destruct (valid_ids_are_not_invalid UnsignedInt 3) as (H1 & _ & H3 & _).
  - vm_compute. split; discriminate.
  - split; [exact H1 | exact H3].
Defined.

(** ** The connector width requestor *)

Section ConnectorWidthsMore.
Import TimeRefinementIntegratorConnectorWidthRequestor.

(** X2: a requestor whose tag buffer was never set cannot be queried: on
    a hierarchy with at least one level the call reads [back()] of the
    empty vector.  Once [setTagBuffer] has stored a non-empty buffer the
    call returns. *)
Theorem unset_tag_buffer_is_undefined self fine h :
  1 <= hierarchy_max_levels h <= int_max ->
  computeRequiredConnectorWidths create self fine h = Err UndefinedBehavior
  /\ forall tag_buffer, tag_buffer <> [] ->
       exists widths,
         computeRequiredConnectorWidths (setTagBuffer create tag_buffer) self fine h
         = Ok widths.
Proof.
  intros Hml. split.
  - unfold computeRequiredConnectorWidths. rewrite resize_fine by done.
    destruct (Z.to_nat (hierarchy_max_levels h)) as [|n] eqn:E; [lia|].
    reflexivity.
  - intros tag_buffer Hne.
    destruct (computeRequiredConnectorWidths_Ok (setTagBuffer create tag_buffer)
                self fine h Hne Hml) as (self' & Hrun & _).
    eauto.
Qed.

Lemma unset_tag_buffer_is_undefined_witness :
  computeRequiredConnectorWidths create [] []
    {| hierarchy_dim := 2; hierarchy_max_levels := 3 |}
  = Err UndefinedBehavior.
Proof.
  apply (unset_tag_buffer_is_undefined [] []
           {| hierarchy_dim := 2; hierarchy_max_levels := 3 |}).
  vm_compute. split; discriminate.
Defined.

(** X3: the widths a call returns are a fixed point: passing them back in
    returns them again, and the contents of [self_connector_widths] on
    entry never matter. *)
Theorem computeRequiredConnectorWidths_idempotent this self fine h self' fine' :
  computeRequiredConnectorWidths this self fine h = Ok (self', fine') ->
  computeRequiredConnectorWidths this self' fine' h = Ok (self', fine')
  /\ forall other_self,
       computeRequiredConnectorWidths this other_self fine h = Ok (self', fine').
Proof.
  unfold computeRequiredConnectorWidths. intros H.
  apply mbind_Ok in H as (f1 & Hf1 & H).
  apply mbind_Ok in H as (s1 & Hs1 & H).
  injection H as <- <-.
  split; [|by rewrite Hf1; simpl; rewrite Hs1].
  assert (Hagain : vector_resize (wrap (hierarchy_max_levels h - 1))
                     (IntVector_getZero (hierarchy_dim h)) f1 = Ok f1).
  { unfold vector_resize in *.
    destruct (wrap (hierarchy_max_levels h - 1) <? 0); [discriminate|].
    injection Hf1 as <-. f_equal.
    set (n := Z.to_nat (wrap (hierarchy_max_levels h - 1))).
    assert (Hlen : length (take n fine
                     ++ replicate (n - length fine) (IntVector_getZero (hierarchy_dim h)))
                   = n).
    { rewrite length_app, length_take, length_replicate. lia. }
    rewrite take_ge by lia. rewrite Hlen, Nat.sub_diag. simpl.
    by rewrite app_nil_r. }
  rewrite Hagain. simpl. by rewrite Hs1.
Qed.

Lemma computeRequiredConnectorWidths_idempotent_witness :
  computeRequiredConnectorWidths {| d_tag_buffer := [1] |}
    [[1; 1]; [1; 1]; [1; 1]] [[5; 5]; [0; 0]]
    {| hierarchy_dim := 2; hierarchy_max_levels := 3 |}
  = Ok ([[1; 1]; [1; 1]; [1; 1]], [[5; 5]; [0; 0]]).
Proof.
  apply (computeRequiredConnectorWidths_idempotent {| d_tag_buffer := [1] |}
           [] [[5; 5]] {| hierarchy_dim := 2; hierarchy_max_levels := 3 |}).
  reflexivity.
Defined.

End ConnectorWidthsMore.

(** ** The factory of outernode sum transactions *)

Section FactoryMore.
Import OuternodeSumTransactionFactory.

Lemma check_arguments_debug_Ok cfg dst_level src_level ov dst_node src_node refine_data :
  debug_check_assertions cfg = true ->
  check_arguments cfg dst_level src_level ov dst_node src_node refine_data = Ok tt
  <-> allocate_preconditions dst_level src_level ov dst_node src_node refine_data.
Proof.
  intros Hdbg. split.
  - unfold check_arguments, assert_objdim_equality4.
    rewrite !TBOX_ASSERT_debug by done.
    destruct dst_level as [dl|]; [|simpl; discriminate].
    destruct src_level as [sl|]; [|simpl; discriminate].
    destruct ov as [o|]; [|simpl; discriminate]. simpl.
    destruct (Z.leb_spec 0 (getLocalId dst_node)); [|simpl; discriminate].
    destruct (Z.leb_spec 0 (getLocalId src_node)); [|simpl; discriminate].
    destruct (Z.eqb_spec refine_data 0); [simpl; discriminate|]. simpl.
    rewrite TBOX_DIM_ASSERT_debug by done.
    destruct (_ && _) eqn:Hb; [|discriminate]. intros _.
    apply andb_true_iff in Hb as [Hb H3]. apply andb_true_iff in Hb as [H1 H2].
    exists dl, sl. repeat split; eauto; by eapply bool_decide_eq_true_1.
  - intros (dl & sl & -> & -> & [o ->] & Hd & Hs & Hr & Hag).
    rewrite check_arguments_dimensions by done. by rewrite decide_True.
Qed.

(** The assertions fail with their diagnostic, never by a null
    dereference. *)
Lemma check_arguments_Err cfg dst_level src_level ov dst_node src_node refine_data e :
  check_arguments cfg dst_level src_level ov dst_node src_node refine_data = Err e ->
  e = AssertionFailed \/ e = DimensionMismatch.
Proof.
  unfold check_arguments.
  repeat match goal with
         | |- context [TBOX_ASSERT cfg ?c] =>
             destruct (TBOX_ASSERT_cases cfg c) as [-> | ->]; simpl;
               [|intros [= <-]; by left]
         end.
  unfold assert_objdim_equality4, TBOX_DIM_ASSERT.
  destruct dst_level, src_level; try discriminate.
  destruct (_ && _); [|discriminate]. intros [= <-]. by right.
Qed.

(** X4: in a build with the assertions compiled in, the assertions of
    [allocate] (both overloads make the same seven) pass exactly when the
    contract holds: no null level or overlap, non-negative local ids,
    non-null refine data, one dimension for the levels and the two boxes.
    When the contract is violated, both overloads stop with the same
    diagnostic, of a failed assertion or of a dimension mismatch, before
    a level is dereferenced or a transaction constructed. *)
Theorem allocate_checks_contract cfg dst_level src_level ov dst_node src_node
    refine_data item_id box flag :
  debug_check_assertions cfg = true ->
  (check_arguments cfg dst_level src_level ov dst_node src_node refine_data = Ok tt
   <-> allocate_preconditions dst_level src_level ov dst_node src_node refine_data)
  /\ (~ allocate_preconditions dst_level src_level ov dst_node src_node refine_data ->
      exists e,
        (e = AssertionFailed \/ e = DimensionMismatch)
        /\ allocate9 cfg dst_level src_level ov dst_node src_node refine_data item_id
             box flag = Err e
        /\ allocate cfg dst_level src_level ov dst_node src_node refine_data item_id
           = Err e).
Proof.
  intros Hdbg.
  pose proof (check_arguments_debug_Ok cfg dst_level src_level ov dst_node src_node
                refine_data Hdbg) as Hiff.
  split; [exact Hiff|]. intros Hno.
  destruct (check_arguments cfg dst_level src_level ov dst_node src_node refine_data)
    as [[]|e] eqn:E.
  - exfalso. apply Hno. by apply Hiff.
  - exists e. split; [by eapply check_arguments_Err|].
    unfold allocate, allocate9. by rewrite E.
Qed.

Lemma allocate_checks_contract_witness :
  allocate9 debug_build None (Some sample_level) (Some OtherOverlap)
    (sample_box 2 0) (sample_box 2 1) 8 0 (sample_box 2 0) false
  = Err AssertionFailed
  /\ allocate debug_build None (Some sample_level) (Some OtherOverlap)
       (sample_box 2 0) (sample_box 2 1) 8 0
     = Err AssertionFailed.
Proof.
  destruct (allocate_checks_contract debug_build None (Some sample_level)
              (Some OtherOverlap) (sample_box 2 0) (sample_box 2 1) 8 0
              (sample_box 2 0) false eq_refl) as [_ Hstop].
  destruct Hstop as (e & _ & H9 & H7).
  - intros (dl & sl & Hdl & _). discriminate.
  - vm_compute in H9. injection H9 as <-. split; reflexivity.
Defined.

(** X5: in a build without the assertions the seven checks of [allocate]
    pass for any arguments, null levels and operands of different
    dimensions included; the overload without clip box still
    dereferences the destination level, for the default clip box
    [hier::Box(dst_level->getDim())], so that a call of it with a null
    destination level is undefined whatever the other arguments are. *)
Theorem allocate_unchecked_in_release cfg dst_level src_level ov dst_node src_node
    refine_data item_id :
  debug_check_assertions cfg = false ->
  check_arguments cfg dst_level src_level ov dst_node src_node refine_data = Ok tt
  /\ allocate cfg None src_level ov dst_node src_node refine_data item_id
     = Err UndefinedBehavior.
Proof.
  intros Hrel.
  assert (Hc : forall dl, check_arguments cfg dl src_level ov dst_node src_node
                            refine_data = Ok tt).
  { intros dl.
    unfold check_arguments, assert_objdim_equality4, TBOX_ASSERT, TBOX_DIM_ASSERT.
    rewrite Hrel. simpl. by destruct dl, src_level. }
  split; [apply Hc|]. unfold allocate. by rewrite Hc.
Qed.

Lemma allocate_unchecked_in_release_witness :
  allocate release_build None (Some sample_level) None
    (sample_box 2 (-1)) (sample_box 3 1) 0 0
  = Err UndefinedBehavior.
Proof.
  apply (allocate_unchecked_in_release release_build None (Some sample_level) None
           (sample_box 2 (-1)) (sample_box 3 1) 0 0).
  reflexivity.
Defined.

(** *** Zero fill *)

(** A loop all of whose iterations leave one state alone leaves it
    alone. *)
Lemma for_each_fixed {A S} (body : A -> S -> result S) l s :
  (forall a, a ∈ l -> body a s = Ok s) -> for_each body l s = Ok s.
Proof.
  induction l as [|a l IH]; intros H; simpl; [done|].
  rewrite H by (by left). simpl. apply IH. intros b Hb. apply H. by right.
Qed.

(** An iteration of a loop that returns started from a state the
    invariant of the loop holds for. *)
Lemma for_each_Ok_each_inv {A S} (body : A -> S -> result S) (Inv : S -> Prop) l s s' a :
  (forall b t t', b ∈ l -> body b t = Ok t' -> Inv t -> Inv t') ->
  for_each body l s = Ok s' -> Inv s -> a ∈ l ->
  exists s0 s1, Inv s0 /\ body a s0 = Ok s1.
Proof.
  revert s. induction l as [|b l IH]; intros s Hkeep H Hs Ha;
    [by apply elem_of_nil in Ha|].
  simpl in H. apply bind_Ok in H as (s1 & H1 & H2).
  apply elem_of_cons in Ha as [->|Ha]; [by exists s, s1|].
  eapply (IH s1); [| exact H2 | | exact Ha].
  - intros c t t' Hc. apply Hkeep. by right.
  - eapply Hkeep; [by left | exact H1 | exact Hs].
Qed.

Lemma preprocess_component_kind cfg sel m p p' n :
  preprocess_component cfg sel m p = Ok p' ->
  is_Some (as_OuternodeData (getPatchData p' n))
  <-> is_Some (as_OuternodeData (getPatchData p n)).
Proof.
  intros H.
  apply preprocess_component_Ok in H as [[_ ->] | [_ (o & Hget & ->)]]; [done|].
  destruct (decide (m = n)) as [->|Hne].
  - rewrite getPatchData_set by (by eapply getPatchData_lt). rewrite Hget.
    simpl. split; eauto.
  - unfold getPatchData. by rewrite patch_data_set_other.
Qed.

Lemma preprocess_patch_selection cfg sel p p' :
  preprocess_patch cfg sel p = Ok p' -> selection_is_outernode sel p.
Proof.
  unfold preprocess_patch. intros H n Hset.
  destruct (for_each_Ok_each_inv (preprocess_component cfg sel)
              (fun s => is_Some (as_OuternodeData (getPatchData s n))
                        <-> is_Some (as_OuternodeData (getPatchData p n)))
              (seq 0 (getSize sel)) p p' n) as (s0 & s1 & Hinv & Hstep).
  - intros m t t' _ Hm Ht. rewrite <- Ht. by eapply preprocess_component_kind.
  - exact H.
  - done.
  - apply elem_of_seq. apply isSet_lt in Hset. lia.
  - apply Hinv.
    apply preprocess_component_Ok in Hstep as [[Hn _] | [_ (o & Hget & _)]];
      [congruence|].
    rewrite Hget. simpl. eauto.
Qed.

(** X6: [preprocessScratchSpace] returns exactly when the level is not
    null and every selected component of every patch of the level is an
    outernode field of [double]s; otherwise it stops, in a build with or
    without the assertions. *)
Theorem preprocessScratchSpace_returns_iff cfg level fill_time sel :
  (exists level', preprocessScratchSpace cfg level fill_time sel = Ok level')
  <-> exists lv, level = Some lv
                 /\ Forall (selection_is_outernode sel) (level_patches lv).
Proof.
  split.
  - intros (level' & H).
    apply preprocessScratchSpace_Ok in H as (lv & -> & _ & Hall).
    exists lv. split; [done|].
    apply Forall_lookup_2. intros i p Hp.
    destruct (Forall2_lookup_l _ _ _ _ _ Hall Hp) as (p' & _ & Hrun).
    by eapply preprocess_patch_selection.
  - intros (lv & -> & Hall). by apply preprocessScratchSpace_returns.
Qed.

Lemma preprocess_patch_fixed cfg sel p :
  (forall n, isSet sel n = true -> zero_component n p) ->
  preprocess_patch cfg sel p = Ok p.
Proof.
  intros Hz. unfold preprocess_patch. apply for_each_fixed. intros n _.
  unfold preprocess_component. destruct (isSet sel n) eqn:Hset; [|done].
  destruct (Hz n Hset) as (o & Hget & Hzero). rewrite Hget. simpl.
  rewrite TBOX_ASSERT_true. simpl. rewrite all_zero_fillAll by done.
  f_equal. destruct p as [pd data]. unfold setPatchData. simpl. f_equal.
  apply list_insert_id. unfold getPatchData in Hget. simpl in Hget.
  destruct (data !! n) as [[x|]|]; simpl in Hget; congruence.
Qed.

Lemma preprocess_patches_fixed cfg sel patches :
  Forall (fun p => preprocess_patch cfg sel p = Ok p) patches ->
  preprocess_patches cfg sel patches = Ok patches.
Proof.
  induction 1 as [|p l Hp _ IH]; simpl; [done|]. by rewrite Hp, IH.
Qed.

(** X7: zero filling is idempotent: on the level a call has returned, a
    second call with the same selection (at any time) returns that level
    unchanged. *)
Theorem preprocessScratchSpace_idempotent cfg level fill_time sel level' :
  preprocessScratchSpace cfg level fill_time sel = Ok level' ->
  forall other_time,
    preprocessScratchSpace cfg (Some level') other_time sel = Ok level'.
Proof.
  intros H other_time.
  apply preprocessScratchSpace_Ok in H as (lv & _ & _ & Hall).
  unfold preprocessScratchSpace. simpl. rewrite TBOX_ASSERT_true. simpl.
  rewrite preprocess_patches_fixed; [by destruct level'|].
  apply Forall_lookup_2. intros i p' Hp'.
  destruct (Forall2_lookup_r _ _ _ _ _ Hall Hp') as (p & _ & Hrun).
  apply preprocess_patch_fixed. intros n Hset. by eapply preprocess_patch_zero.
Qed.

Lemma preprocessScratchSpace_idempotent_witness :
  preprocessScratchSpace debug_build (Some sample_level_zeroed) d_3 select_first
  = Ok sample_level_zeroed.
Proof.
  apply (preprocessScratchSpace_idempotent debug_build (Some sample_level) d_1
           select_first sample_level_zeroed).
  reflexivity.
Defined.

(** X8: with no component selected, [preprocessScratchSpace] returns the
    level as it is, whatever data its patches hold. *)
Theorem preprocessScratchSpace_nothing_selected cfg lv fill_time sel :
  (forall n, isSet sel n = false) ->
  preprocessScratchSpace cfg (Some lv) fill_time sel = Ok lv.
Proof.
  intros Hnone. unfold preprocessScratchSpace. simpl.
  rewrite TBOX_ASSERT_true. simpl.
  rewrite preprocess_patches_fixed; [by destruct lv|].
  apply Forall_forall. intros p _. unfold preprocess_patch.
  apply for_each_fixed. intros n _. unfold preprocess_component. by rewrite Hnone.
Qed.

Lemma preprocessScratchSpace_nothing_selected_witness :
  preprocessScratchSpace release_build (Some sample_level) d_1
    {| selector_bits := [false; false] |}
  = Ok sample_level.
Proof.
  apply (preprocessScratchSpace_nothing_selected release_build sample_level d_1
           {| selector_bits := [false; false] |}).
  intros [|[|n]]; reflexivity.
Defined.

End FactoryMore.

(** ** The constant refine operator *)

Section RefineMore.
Import FaceConstantRefine.
Context {T : Type}.
Variable cfg : Build.

(** X9: for an [int] index and a positive ratio, the coarse index is [c]
    exactly for the [ratio] fine indices [c * ratio .. c * ratio + ratio - 1],
    negative ones included: every coarse face feeds a full block of fine
    faces, and with ratio 1 the index is kept. *)
Theorem coarsen_preimage k r c :
  in_int k -> 1 <= r <= int_max ->
  (coarsen k r = c <-> c * r <= k < (c + 1) * r)
  /\ coarsen k 1 = k.
Proof.
  intros Hk Hr.
  destruct (coarsen_floor k r Hk Hr) as [_ ->].
  destruct (coarsen_floor k 1 Hk) as [_ ->]; [unfold int_max; lia|].
  split; [|by rewrite Z.div_1_r].
  pose proof (Z.div_mod k r ltac:(lia)) as Hdm.
  pose proof (Z.mod_pos_bound k r ltac:(lia)) as Hb.
  split.
  - intros <-. nia.
  - intros Hc. symmetry. apply Z.div_unique with (k - c * r); lia.
Qed.

Lemma coarsen_preimage_witness :
  coarsen (-3) 2 = -2 <-> -2 * 2 <= -3 < (-2 + 1) * 2.
Proof.
  apply (coarsen_preimage (-3) 2 (-2)); vm_compute; split; discriminate.
Defined.

Variable schedule : list Index -> list Index.
Hypothesis schedule_once : schedule_wf schedule.

Lemma written_or_not dim depth boxes axis d idx :
  written dim depth boxes axis d idx \/ ~ written dim depth boxes axis d idx.
Proof.
  unfold written.
  destruct (decide (axis < dim)%nat); [|right; tauto].
  destruct (decide (d < Z.to_nat depth)%nat); [|right; tauto].
  destruct (decide (Exists (fun face_box => idx ∈ destination_faces dim axis face_box)
                      (getDestinationBoxContainer boxes axis))) as [He|He].
  - left. apply Exists_exists in He. tauto.
  - right. intros (_ & _ & Hex). apply He. by apply Exists_exists.
Qed.

(** A face outside the destination boxes keeps its value through the
    loops. *)
Lemma refine_loops_untouched dim (cdata : FaceData T) depth ratio boxes
    (fdata fdata' : arrays) axis d idx :
  (1 <= dim <= 3)%nat ->
  for_each (refine_axis cfg schedule dim cdata depth ratio boxes) (seq 0 dim) fdata
  = Ok fdata' ->
  ~ written dim depth boxes axis d idx ->
  fdata' axis d idx = fdata axis d idx.
Proof.
  intros Hdim Hrun Hun.
  eapply (for_each_invariant _ (fun s : arrays => s axis d idx = fdata axis d idx));
    [|exact Hrun|done].
  intros a s s' Ha Haxis Hs. apply elem_of_seq in Ha. unfold refine_axis in Haxis.
  eapply (for_each_invariant _ (fun t : arrays => t axis d idx = fdata axis d idx));
    [|exact Haxis|exact Hs].
  intros face_box t t' Hbox Hb Ht. unfold refine_box in Hb.
  apply mbind_Ok in Hb as (u & _ & Hb).
  eapply (for_each_invariant _ (fun t : arrays => t axis d idx = fdata axis d idx));
    [|exact Hb|exact Ht].
  intros d0 v v' Hd0 Hstep Hv. apply elem_of_seq in Hd0.
  destruct (refine_depth_Ok cfg schedule schedule_once dim cdata ratio a face_box
              d0 v Hdim) as (v'' & Hrun' & Hval); [lia|].
  rewrite Hstep in Hrun'. injection Hrun' as <-.
  rewrite Hval. case_decide as Hc; [|exact Hv].
  destruct Hc as (-> & -> & Hidx). exfalso. apply Hun.
  split; [lia|]. split; [lia|]. by exists face_box.
Qed.

(** The checks of the loops do not depend on the arrays: the loops
    return from any arrays once they have returned from some. *)
Lemma refine_loops_checks (dim : Dimension) (cdata : FaceData T) depth ratio boxes
    (fdata fdata' : arrays) axis face_box :
  for_each (refine_axis cfg schedule dim cdata depth ratio boxes) (seq 0 dim) fdata
  = Ok fdata' ->
  (axis < dim)%nat -> face_box ∈ getDestinationBoxContainer boxes axis ->
  TBOX_DIM_ASSERT cfg (bool_decide (dim = box_dim face_box)) = Ok tt.
Proof.
  intros Hrun Haxis Hbox.
  assert (Hin : axis ∈ seq 0 dim) by (apply elem_of_seq; lia).
  destruct (for_each_Ok_each _ _ _ _ axis Hrun Hin) as (s0 & s1 & Ha).
  unfold refine_axis in Ha.
  destruct (for_each_Ok_each _ _ _ _ face_box Ha Hbox) as (t0 & t1 & Hb).
  unfold refine_box in Hb. apply mbind_Ok in Hb as ([] & Hcheck & _). exact Hcheck.
Qed.

Lemma refine_loops_total (dim : Dimension) (cdata : FaceData T) depth ratio boxes
    (fdata : arrays) :
  (1 <= dim <= 3)%nat ->
  (forall axis face_box,
     (axis < dim)%nat -> face_box ∈ getDestinationBoxContainer boxes axis ->
     TBOX_DIM_ASSERT cfg (bool_decide (dim = box_dim face_box)) = Ok tt) ->
  exists fdata',
    for_each (refine_axis cfg schedule dim cdata depth ratio boxes) (seq 0 dim) fdata
    = Ok fdata'.
Proof.
  intros Hdim Hchecks. apply for_each_total.
  intros axis s Haxis. apply elem_of_seq in Haxis. unfold refine_axis.
  apply for_each_total. intros face_box t Hbox.
  assert (Hdepths : exists t',
             for_each (refine_depth cfg schedule dim cdata ratio axis
                         (fine_box_of dim axis face_box))
               (seq 0 (Z.to_nat depth)) t = Ok t').
  { apply for_each_total. intros d u _.
    destruct (refine_depth_Ok cfg schedule schedule_once dim cdata ratio axis face_box
                d u Hdim) as (u' & Hu & _); [lia|].
    by exists u'. }
  destruct Hdepths as (t' & Ht). exists t'. unfold refine_box.
  rewrite (Hchecks axis face_box) by (lia || done). exact Ht.
Qed.

(** What a call of [refine] that returns has checked and computed. *)
Lemma refine_Ok_inv_checks (fine coarse fine' : Patch T) dst src ov ratio :
  refine cfg schedule fine coarse dst src ov ratio = Ok fine' ->
  exists cdata fdata boxes a,
    as_FaceData (getPatchData coarse src) = Some cdata
    /\ getPatchData fine dst = Some (FaceDataOf fdata)
    /\ ov = FaceOverlapOf boxes
    /\ TBOX_ASSERT cfg (face_depth cdata =? face_depth fdata) = Ok tt
    /\ TBOX_DIM_ASSERT cfg
         (bool_decide (patch_dim fine = patch_dim coarse)
          && bool_decide (patch_dim fine = IntVector_getDim ratio)) = Ok tt
    /\ for_each (refine_axis cfg schedule (patch_dim fine) cdata (face_depth fdata)
                   ratio boxes) (seq 0 (patch_dim fine)) (face_array fdata) = Ok a
    /\ fine' = setPatchData fine dst
                 (FaceDataOf {| face_depth := face_depth fdata;
                                face_ghost_box := face_ghost_box fdata;
                                face_array := a |}).
Proof.
  unfold refine. intros H.
  do 3 (apply mbind_Ok in H as (? & _ & H)).
  apply mbind_Ok in H as ([] & Hdepth & H).
  apply mbind_Ok in H as ([] & Hdims & H).
  apply mbind_Ok in H as (c & Hc & H).
  apply mbind_Ok in H as (f & Hf & H).
  apply mbind_Ok in H as (o & Ho & H).
  apply mbind_Ok in H as (a & Ha & H).
  injection H as <-.
  destruct (as_FaceData (getPatchData coarse src)) as [c'|] eqn:Ec; [|discriminate].
  destruct (as_FaceData (getPatchData fine dst)) as [f'|] eqn:Ef; [|discriminate].
  destruct ov as [boxes|]; [|discriminate].
  injection Hc as ->. injection Hf as ->. injection Ho as ->.
  exists c, f, o, a. apply as_FaceData_Some in Ef. by repeat split.
Qed.

(** [refine] from its checks: the guards passed, the loops run. *)
Lemma refine_of_checks (fine coarse : Patch T) dst src boxes ratio cdata fdata :
  as_FaceData (getPatchData coarse src) = Some cdata ->
  getPatchData fine dst = Some (FaceDataOf fdata) ->
  TBOX_ASSERT cfg (face_depth cdata =? face_depth fdata) = Ok tt ->
  TBOX_DIM_ASSERT cfg
    (bool_decide (patch_dim fine = patch_dim coarse)
     && bool_decide (patch_dim fine = IntVector_getDim ratio)) = Ok tt ->
  refine cfg schedule fine coarse dst src (FaceOverlapOf boxes) ratio
  = a ← for_each (refine_axis cfg schedule (patch_dim fine) cdata (face_depth fdata)
                    ratio boxes) (seq 0 (patch_dim fine)) (face_array fdata);
    Ok (setPatchData fine dst
          (FaceDataOf {| face_depth := face_depth fdata;
                         face_ghost_box := face_ghost_box fdata;
                         face_array := a |})).
Proof.
  intros Hc Hf Hdepth Hdims. unfold refine. rewrite Hc, Hf. simpl.
  rewrite !TBOX_ASSERT_true, Hdepth, Hdims. reflexivity.
Qed.

(** The arrays [refine] returns, face by face. *)
Lemma refine_exact (fine coarse fine' : Patch T) dst src ov ratio :
  (1 <= patch_dim fine <= 3)%nat ->
  refine cfg schedule fine coarse dst src ov ratio = Ok fine' ->
  exists cdata fdata fdata' boxes,
    as_FaceData (getPatchData coarse src) = Some cdata
    /\ getPatchData fine dst = Some (FaceDataOf fdata)
    /\ ov = FaceOverlapOf boxes
    /\ fine' = setPatchData fine dst (FaceDataOf fdata')
    /\ face_depth fdata' = face_depth fdata
    /\ face_ghost_box fdata' = face_ghost_box fdata
    /\ forall axis d idx,
         (written (patch_dim fine) (face_depth fdata) boxes axis d idx ->
          face_array fdata' axis d idx
          = coarse_value cfg (patch_dim fine) cdata ratio axis d idx)
         /\ (~ written (patch_dim fine) (face_depth fdata) boxes axis d idx ->
             face_array fdata' axis d idx = face_array fdata axis d idx).
Proof.
  intros Hdim H.
  apply refine_Ok_inv_checks in H
    as (c & f & boxes & a & Hc & Hf & -> & _ & _ & Hloop & ->).
  eexists c, f, _, boxes. repeat (split; [done || reflexivity|]).
  intros axis d idx. simpl. split.
  - intros (Haxis & Hd & face_box & Hbox & Hidx).
    by eapply refine_loops_establish.
  - intros Hun. by eapply refine_loops_untouched.
Qed.

End RefineMore.

Section RefineComposition.
Import FaceConstantRefine.
Context {T : Type}.
Variable cfg : Build.
Variable schedule : list Index -> list Index.
Hypothesis schedule_once : schedule_wf schedule.

(** X10: in one to three dimensions [refine] writes the faces of the
    destination boxes and nothing else: the fine patch keeps its
    dimension and every other component, the destination data keep their
    depth and ghost box, and every face outside the destination boxes
    (or of another axis or depth) keeps its value. *)
Theorem refine_writes_only_destination (fine coarse fine' : Patch T) dst src ov ratio :
  (1 <= patch_dim fine <= 3)%nat ->
  refine cfg schedule fine coarse dst src ov ratio = Ok fine' ->
  patch_dim fine' = patch_dim fine
  /\ length (patch_data fine') = length (patch_data fine)
  /\ (forall n, n <> dst -> patch_data fine' !! n = patch_data fine !! n)
  /\ exists fdata fdata' boxes,
       getPatchData fine dst = Some (FaceDataOf fdata)
       /\ getPatchData fine' dst = Some (FaceDataOf fdata')
       /\ ov = FaceOverlapOf boxes
       /\ face_depth fdata' = face_depth fdata
       /\ face_ghost_box fdata' = face_ghost_box fdata
       /\ forall axis d idx,
            ~ written (patch_dim fine) (face_depth fdata) boxes axis d idx ->
            face_array fdata' axis d idx = face_array fdata axis d idx.
Proof.
  intros Hdim H.
  destruct (refine_exact cfg schedule schedule_once fine coarse fine' dst src ov ratio
              Hdim H)
    as (c & f & f' & boxes & Hc & Hf & -> & -> & Hdepth & Hghost & Hval).
  split; [done|]. split; [simpl; apply length_insert|].
  split; [intros n Hn; by apply patch_data_set_other|].
  exists f, f', boxes. split; [done|].
  split; [apply getPatchData_set; by eapply getPatchData_lt|].
  repeat (split; [done|]). intros axis d idx. apply Hval.
Qed.

(** X11: [refine] is idempotent: on the fine patch a call has returned, a
    second call with the same arguments returns too, and leaves every
    value of the destination data and every other component as the first
    call left them. *)
Theorem refine_idempotent (fine coarse fine' : Patch T) dst src ov ratio :
  (1 <= patch_dim fine <= 3)%nat ->
  refine cfg schedule fine coarse dst src ov ratio = Ok fine' ->
  exists fine'' fdata' fdata'',
    refine cfg schedule fine' coarse dst src ov ratio = Ok fine''
    /\ getPatchData fine' dst = Some (FaceDataOf fdata')
    /\ getPatchData fine'' dst = Some (FaceDataOf fdata'')
    /\ (forall axis d idx,
          face_array fdata'' axis d idx = face_array fdata' axis d idx)
    /\ forall n, n <> dst -> patch_data fine'' !! n = patch_data fine' !! n.
Proof.
  intros Hdim H.
  apply refine_Ok_inv_checks in H
    as (c & f & boxes & a & Hc & Hf & -> & Hdepth & Hdims & Hloop & ->).
  set (f' := {| face_depth := face_depth f; face_ghost_box := face_ghost_box f;
                face_array := a |}).
  set (fine' := setPatchData fine dst (FaceDataOf f')).
  assert (Hf' : getPatchData fine' dst = Some (FaceDataOf f')).
  { apply getPatchData_set. by eapply getPatchData_lt. }
  destruct (refine_loops_total cfg schedule schedule_once (patch_dim fine) c
              (face_depth f) ratio boxes a Hdim) as (a2 & Hloop2).
  { intros axis face_box. by eapply refine_loops_checks. }
  eexists _, f', _. split; [|split; [exact Hf'|split; [|split]]].
  - rewrite (refine_of_checks cfg schedule fine' coarse dst src boxes ratio c f')
      by done.
    simpl. rewrite Hloop2. reflexivity.
  - apply getPatchData_set. simpl. rewrite length_insert. by eapply getPatchData_lt.
  - intros axis d idx. simpl.
    destruct (written_or_not (patch_dim fine) (face_depth f) boxes axis d idx)
      as [Hw|Hw].
    + pose proof Hw as (Haxis & Hd & face_box & Hbox & Hidx).
      rewrite (refine_loops_establish cfg schedule schedule_once (patch_dim fine) c
                 ratio Hdim (face_depth f) boxes axis face_box a a2 d idx)
        by done.
      by rewrite (refine_loops_establish cfg schedule schedule_once (patch_dim fine) c
                    ratio Hdim (face_depth f) boxes axis face_box (face_array f) a
                    d idx).
    + by eapply refine_loops_untouched.
  - intros n Hn. by apply patch_data_set_other.
Qed.

(** X12: the result of [refine] does not depend on the order of the
    destination boxes of the overlap: with the boxes of every axis
    permuted, the call returns as well and every value of the destination
    data is the same. *)
Theorem refine_box_order (fine coarse fine1 : Patch T) dst src boxes boxes' ratio :
  (1 <= patch_dim fine <= 3)%nat ->
  (forall axis, Permutation (getDestinationBoxContainer boxes' axis)
                            (getDestinationBoxContainer boxes axis)) ->
  refine cfg schedule fine coarse dst src (FaceOverlapOf boxes) ratio = Ok fine1 ->
  exists fine2 fdata1 fdata2,
    refine cfg schedule fine coarse dst src (FaceOverlapOf boxes') ratio = Ok fine2
    /\ getPatchData fine1 dst = Some (FaceDataOf fdata1)
    /\ getPatchData fine2 dst = Some (FaceDataOf fdata2)
    /\ face_depth fdata2 = face_depth fdata1
    /\ forall axis d idx,
         face_array fdata2 axis d idx = face_array fdata1 axis d idx.
Proof.
  intros Hdim Hperm H.
  apply refine_Ok_inv_checks in H
    as (c & f & b & a & Hc & Hf & Hb & Hdepth & Hdims & Hloop & ->).
  injection Hb as <-.
  assert (Hlt : (dst < length (patch_data fine))%nat) by (by eapply getPatchData_lt).
  destruct (refine_loops_total cfg schedule schedule_once (patch_dim fine) c
              (face_depth f) ratio boxes' (face_array f) Hdim) as (a2 & Hloop2).
  { intros axis face_box Haxis Hbox. eapply refine_loops_checks; [exact Hloop|done|].
    by rewrite <- (Hperm axis). }
  eexists _, _, _. split; [|split; [by apply getPatchData_set|split; [|split]]].
  - rewrite (refine_of_checks cfg schedule fine coarse dst src boxes' ratio c f)
      by done.
    rewrite Hloop2. reflexivity.
  - by apply getPatchData_set.
  - reflexivity.
  - intros axis d idx. simpl.
    assert (Hsame : written (patch_dim fine) (face_depth f) boxes' axis d idx
                    <-> written (patch_dim fine) (face_depth f) boxes axis d idx).
    { unfold written. split; intros (Haxis & Hd & face_box & Hbox & Hidx);
        (split; [done|]; split; [done|]; exists face_box; split; [|done]).
      - by rewrite <- (Hperm axis).
      - by rewrite (Hperm axis). }
    destruct (written_or_not (patch_dim fine) (face_depth f) boxes axis d idx)
      as [Hw|Hw].
    + pose proof Hw as (Haxis & Hd & face_box & Hbox & Hidx).
      pose proof (proj2 Hsame Hw) as (_ & _ & face_box' & Hbox' & Hidx').
      rewrite (refine_loops_establish cfg schedule schedule_once (patch_dim fine) c
                 ratio Hdim (face_depth f) boxes' axis face_box' (face_array f) a2
                 d idx) by done.
      by rewrite (refine_loops_establish cfg schedule schedule_once (patch_dim fine) c
                    ratio Hdim (face_depth f) boxes axis face_box (face_array f) a
                    d idx).
    + rewrite (refine_loops_untouched cfg schedule schedule_once (patch_dim fine) c
                 (face_depth f) ratio boxes' (face_array f) a2 axis d idx Hdim Hloop2)
        by (by rewrite Hsame).
      by rewrite (refine_loops_untouched cfg schedule schedule_once (patch_dim fine) c
                    (face_depth f) ratio boxes (face_array f) a axis d idx Hdim Hloop).
Qed.

(** X13: in a build with the assertions compiled in, a call of [refine]
    that returns has met the contract: the overlap is a face overlap
    whose boxes (on the axes of the dimension) have the dimension of the
    patches, both data are face data, of one depth, and the patches and
    the ratio have one dimension.  Every violation of it stops the
    call. *)
Theorem refine_returns_only_on_contract (fine coarse fine' : Patch T) dst src ov ratio :
  debug_check_assertions cfg = true ->
  refine cfg schedule fine coarse dst src ov ratio = Ok fine' ->
  refine_preconditions fine coarse dst src ov ratio.
Proof.
  intros Hdbg H.
  apply refine_Ok_inv_checks in H
    as (c & f & boxes & a & Hc & Hf & -> & Hdepth & Hdims & Hloop & _).
  exists boxes, c, f. split; [done|].
  split; [by apply as_FaceData_Some|]. split; [done|].
  rewrite TBOX_ASSERT_debug in Hdepth by done.
  rewrite TBOX_DIM_ASSERT_debug in Hdims by done.
  split; [|split].
  - destruct (Z.eqb_spec (face_depth c) (face_depth f)); [done|discriminate].
  - destruct (_ && _) eqn:Hb; [|discriminate].
    apply andb_true_iff in Hb as [H1 H2].
    split; by eapply bool_decide_eq_true_1.
  - intros axis face_box Haxis Hbox.
    pose proof (refine_loops_checks cfg schedule _ _ _ _ _ _ _ axis face_box
                  Hloop Haxis Hbox) as Hcheck.
    rewrite TBOX_DIM_ASSERT_debug in Hcheck by done.
    case_bool_decide; [done|discriminate].
Qed.

(** X14: with no destination box in the overlap, [refine] is a no-op in
    every dimension: once the data and the dimensions pass the checks, it
    returns the fine patch as it is. *)
Theorem refine_empty_overlap (fine coarse : Patch T) dst src boxes ratio cdata fdata :
  getPatchData coarse src = Some (FaceDataOf cdata) ->
  getPatchData fine dst = Some (FaceDataOf fdata) ->
  face_depth cdata = face_depth fdata ->
  refine_dimensions_agree fine coarse ratio ->
  has_destination_box (patch_dim fine) boxes = false ->
  refine cfg schedule fine coarse dst src (FaceOverlapOf boxes) ratio = Ok fine.
Proof.
  intros Hc Hf Hdepth Hag Hnone.
  rewrite (refine_unfold cfg schedule fine coarse dst src boxes ratio cdata fdata)
    by done.
  rewrite for_each_fixed; [simpl; by rewrite setPatchData_same|].
  intros axis Haxis. unfold refine_axis.
  unfold has_destination_box in Hnone.
  assert (Hempty : getDestinationBoxContainer boxes axis = []).
  { destruct (getDestinationBoxContainer boxes axis) eqn:E; [done|].
    exfalso. assert (Htrue : existsb
               (fun axis => match getDestinationBoxContainer boxes axis with
                            | [] => false | _ :: _ => true end)
               (seq 0 (patch_dim fine)) = true); [|congruence].
    apply existsb_exists. exists axis. split; [by apply list_elem_of_In|].
    by rewrite E. }
  by rewrite Hempty.
Qed.

End RefineComposition.

Section RefineCompositionWitnesses.
Import FaceConstantRefine.

Lemma refine_writes_only_destination_witness :
  exists fine',
    refine debug_build sequential (sample_fine 2) (sample_coarse 2) 0 0
      sample_overlap_2d [2; 2] = Ok fine'
    /\ patch_dim fine' = 2%nat.
Proof.
  destruct (refine debug_build sequential (sample_fine 2) (sample_coarse 2) 0 0
              sample_overlap_2d [2; 2]) as [fine'|e] eqn:E;
    [|vm_compute in E; discriminate].
  exists fine'. split; [reflexivity|].
  destruct (refine_writes_only_destination debug_build sequential sequential_wf
              (sample_fine 2) (sample_coarse 2) fine' 0 0 sample_overlap_2d [2; 2])
    as (Hdim & _); [simpl; lia | exact E | exact Hdim].
Defined.

Lemma refine_idempotent_witness :
  exists fine' fine'',
    refine debug_build sequential (sample_fine 2) (sample_coarse 2) 0 0
      sample_overlap_2d [2; 2] = Ok fine'
    /\ refine debug_build sequential fine' (sample_coarse 2) 0 0
         sample_overlap_2d [2; 2] = Ok fine''.
Proof.
  destruct (refine debug_build sequential (sample_fine 2) (sample_coarse 2) 0 0
              sample_overlap_2d [2; 2]) as [fine'|e] eqn:E;
    [|vm_compute in E; discriminate].
  destruct (refine_idempotent debug_build sequential sequential_wf
              (sample_fine 2) (sample_coarse 2) fine' 0 0 sample_overlap_2d [2; 2])
    as (fine'' & _ & _ & Hrun & _); [simpl; lia | exact E |].
  by exists fine', fine''.
Defined.

Lemma refine_box_order_witness :
  exists fine2,
    refine debug_build sequential (sample_fine 2) (sample_coarse 2) 0 0
      (FaceOverlapOf [[sample_box 2 0; sample_face_box]; []]) [2; 2] = Ok fine2.
Proof.
  destruct (refine debug_build sequential (sample_fine 2) (sample_coarse 2) 0 0
              (FaceOverlapOf [[sample_face_box; sample_box 2 0]; []]) [2; 2])
    as [fine1|e] eqn:E; [|vm_compute in E; discriminate].
  destruct (refine_box_order debug_build sequential sequential_wf
              (sample_fine 2) (sample_coarse 2) fine1 0 0
              [[sample_face_box; sample_box 2 0]; []]
              [[sample_box 2 0; sample_face_box]; []] [2; 2])
    as (fine2 & _ & _ & Hrun & _); [simpl; lia | | exact E | by exists fine2].
  intros [|[|axis]]; [apply perm_swap | reflexivity | reflexivity].
Defined.

Lemma refine_returns_only_on_contract_witness :
  refine_preconditions (sample_fine 2) (sample_coarse 2) 0 0 sample_overlap_2d [2; 2].
Proof.
  destruct (refine debug_build sequential (sample_fine 2) (sample_coarse 2) 0 0
              sample_overlap_2d [2; 2]) as [fine'|e] eqn:E;
    [|vm_compute in E; discriminate].
  exact (refine_returns_only_on_contract debug_build sequential
           (sample_fine 2) (sample_coarse 2) fine' 0 0 sample_overlap_2d [2; 2]
           eq_refl E).
Defined.

Lemma refine_empty_overlap_witness :
  refine debug_build reversed (sample_fine 2) (sample_coarse 2) 0 0
    (FaceOverlapOf [[]; []]) [2; 2] = Ok (sample_fine 2).
Proof.
  apply (refine_empty_overlap debug_build reversed (sample_fine 2) (sample_coarse 2)
           0 0 [[]; []] [2; 2] (sample_face_data 2 coarse_values)
           (sample_face_data 2 (fun _ _ _ => 0)));
    try reflexivity.
  split; reflexivity.
Defined.

End RefineCompositionWitnesses.

(** ** The pencil dump of the Euler application *)

Section Pencil.
Import EulerMain.

(** The loops that skip the pencil direction visit the other directions
    in order, each with its position as running index. *)
Lemma other_direction_seq {St} pd (body : nat -> nat -> St -> result St) a n (s : St) :
  for_each (other_direction pd body) (seq a n) (s, pencil_slot pd a)
  = s' ← for_each (fun id s => body (pencil_slot pd id) id s)
           (filter (fun id => id <> pd) (seq a n)) s;
    Ok (s', pencil_slot pd (a + n)).
Proof.
  revert a s. induction n as [|n IH]; intros a s; simpl.
  - by rewrite Nat.add_0_r.
  - unfold other_direction at 1. simpl.
    replace (a + S n)%nat with (S a + n)%nat by lia.
    destruct (decide (a = pd)) as [->|Hne].
    + rewrite filter_cons_False by tauto.
      replace (pencil_slot pd pd) with (pencil_slot pd (S pd)); [apply IH|].
      unfold pencil_slot.
      destruct (Nat.leb_spec (S pd) pd), (Nat.leb_spec pd pd); lia.
    + rewrite filter_cons_True by done. simpl.
      destruct (body (pencil_slot pd a) a s) as [s1|e]; simpl; [|done].
      replace (S (pencil_slot pd a)) with (pencil_slot pd (S a)); [apply IH|].
      unfold pencil_slot.
      destruct (Nat.leb_spec (S a) pd), (Nat.leb_spec a pd); lia.
Qed.

Lemma other_directions pd dim (id : nat) :
  id ∈ filter (fun id => id <> pd) (seq 0 dim) <-> (id < dim)%nat /\ id <> pd.
Proof. rewrite list_elem_of_filter, elem_of_seq. lia. Qed.

Lemma pencil_slot_lt pd dim id :
  (pd < dim)%nat -> (id < dim)%nat -> id <> pd -> (pencil_slot pd id < dim - 1)%nat.
Proof. unfold pencil_slot. destruct (Nat.leb_spec id pd); lia. Qed.

Lemma pencil_slot_inj pd a b :
  a <> pd -> b <> pd -> pencil_slot pd a = pencil_slot pd b -> a = b.
Proof.
  unfold pencil_slot. destruct (Nat.leb_spec a pd), (Nat.leb_spec b pd); lia.
Qed.

Lemma vector_set_Ok v i x v' :
  vector_set v i x = Ok v' -> (i < length v)%nat /\ v' = <[i := x]> v.
Proof.
  unfold vector_set. destruct (Nat.ltb_spec i (length v)); [|discriminate].
  by intros [= <-].
Qed.

Lemma vector_set_lt v i x :
  (i < length v)%nat -> vector_set v i x = Ok (<[i := x]> v).
Proof.
  intros H. unfold vector_set. by destruct (Nat.ltb_spec i (length v)); [|lia].
Qed.

(** The copy of the pencil index into [tmp]. *)
Lemma copy_pencil_index (pencil_index tmp : list Z) k :
  (k <= length tmp)%nat -> (k <= length pencil_index)%nat ->
  for_each (fun id tmp => x ← vector_at pencil_index id; vector_set tmp id x)
    (seq 0 k) tmp
  = Ok (take k pencil_index ++ drop k tmp).
Proof.
  induction k as [|k IH]; intros Ht Hp.
  - reflexivity.
  - rewrite seq_S, for_each_app, IH by lia. simpl.
    destruct (lookup_lt_is_Some_2 pencil_index k) as [x Hx]; [lia|].
    unfold vector_at. rewrite Hx. simpl.
    rewrite vector_set_lt
      by (rewrite length_app, length_take, length_drop; lia).
    simpl. f_equal.
    rewrite (take_S_r _ _ x) by done.
    rewrite insert_app_r_alt by (rewrite length_take; lia).
    rewrite length_take, Nat.min_l, Nat.sub_diag by lia.
    destruct (drop k tmp) as [|y rest] eqn:E.
    + apply (f_equal length) in E. rewrite length_drop in E. simpl in E. lia.
    + simpl. rewrite <- app_assoc. simpl. do 2 f_equal.
      rewrite <- (Nat.add_1_r k), <- drop_drop, E. reflexivity.
Qed.

(** Writing the values [g id] into the slots [f id] of [tmp]. *)
Lemma fill_slots (f : nat -> nat) (g : nat -> Z) l (tmp : list Z) :
  (forall id, id ∈ l -> (f id < length tmp)%nat) ->
  exists tmp',
    for_each (fun id s => vector_set s (f id) (g id)) l tmp = Ok tmp'
    /\ length tmp' = length tmp
    /\ (forall id, id ∈ l ->
          (forall id', id' ∈ l -> f id' = f id -> id' = id) ->
          tmp' !! f id = Some (g id)).
Proof.
  assert (forall l tmp, (forall id, id ∈ l -> (f id < length tmp)%nat) ->
    exists tmp',
      for_each (fun id s => vector_set s (f id) (g id)) l tmp = Ok tmp'
      /\ length tmp' = length tmp
      /\ (forall j, (forall id, id ∈ l -> f id <> j) -> tmp' !! j = tmp !! j)
      /\ (forall id, id ∈ l ->
            (forall id', id' ∈ l -> f id' = f id -> id' = id) ->
            tmp' !! f id = Some (g id))) as G.
  { clear l tmp. induction l as [|a l IH]; intros tmp Hlt.
    - exists tmp. repeat split; try done. intros id Hid. by apply elem_of_nil in Hid.
    - simpl. rewrite vector_set_lt by (apply Hlt; by left). simpl.
      destruct (IH (<[f a := g a]> tmp)) as (tmp' & Hrun & Hlen & Hframe & Hset).
      { intros id Hid. rewrite length_insert. apply Hlt. by right. }
      exists tmp'. rewrite length_insert in Hlen. repeat split; try done.
      + intros j Hj. rewrite Hframe by (intros id Hid; apply Hj; by right).
        apply list_lookup_insert_ne, Hj. by left.
      + intros id Hid Hinj. destruct (decide (id ∈ l)) as [Hin|Hnin].
        * apply Hset; [done|]. intros id' Hid'. apply Hinj. by right.
        * apply elem_of_cons in Hid as [->|Hid]; [|done].
          rewrite Hframe.
          -- apply list_lookup_insert_eq. apply Hlt. by left.
          -- intros id Hid Heq. apply Hnin.
             rewrite <- (Hinj id); [done| by right | done]. }
  intros H. destruct (G l tmp H) as (tmp' & ? & ? & ? & ?). by exists tmp'.
Qed.

(** The last loop: both corners of the box are set to the value of
    [tmp] in every direction of the list. *)
Lemma set_pencil_corners (f : nat -> nat) (h : nat -> Z) (tmp : list Z) l (bb : Box) :
  (forall id, id ∈ l -> tmp !! f id = Some (h id)) ->
  (forall id, id ∈ l -> (id < length (box_lo bb))%nat /\ (id < length (box_hi bb))%nat) ->
  exists pb,
    for_each (fun id pencil_box =>
                x ← vector_at tmp (f id);
                Ok (setUpper id x (setLower id x pencil_box))) l bb = Ok pb
    /\ length (box_lo pb) = length (box_lo bb)
    /\ length (box_hi pb) = length (box_hi bb)
    /\ box_dim pb = box_dim bb /\ box_local_id pb = box_local_id bb
    /\ (forall j, j ∉ l -> lower pb j = lower bb j /\ upper pb j = upper bb j)
    /\ (forall id, id ∈ l -> lower pb id = h id /\ upper pb id = h id).
Proof.
  revert bb. induction l as [|a l IH]; intros bb Htmp Hlen.
  - exists bb. do 5 (split; [done|]).
    split; [done|]. intros id Hid. by apply elem_of_nil in Hid.
  - simpl. unfold vector_at at 1. rewrite (Htmp a) by (by left). simpl.
    destruct (Hlen a) as [Hlo Hhi]; [by left|].
    destruct (IH (setUpper a (h a) (setLower a (h a) bb)))
      as (pb & Hrun & Hl & Hu & Hd & Hli & Hframe & Hset).
    { intros id Hin. apply Htmp. by right. }
    { intros id Hin. simpl. unfold Index. rewrite !length_insert. apply Hlen. by right. }
    exists pb. simpl in Hl, Hu, Hd, Hli. unfold Index in Hl, Hu.
    rewrite length_insert in Hl, Hu.
    split; [exact Hrun|]. do 4 (split; [done|]).
    split; [intros j H; split | intros id H; split].
    + destruct (Hframe j) as [E _]; [by intros ?; apply H; right|].
      rewrite E. unfold lower, setUpper, setLower, component. cbn [box_lo].
      unfold Index. rewrite list_lookup_insert_ne; [done|].
      intros ->. apply H. by left.
    + destruct (Hframe j) as [_ E]; [by intros ?; apply H; right|].
      rewrite E. unfold upper, setUpper, setLower, component. cbn [box_hi].
      unfold Index. rewrite list_lookup_insert_ne; [done|].
      intros ->. apply H. by left.
    + destruct (decide (id ∈ l)) as [Hin|Hnin]; [by apply Hset|].
      apply elem_of_cons in H as [->|H]; [|done].
      destruct (Hframe a Hnin) as [E _]. rewrite E.
      unfold lower, setUpper, setLower, component. cbn [box_lo].
      unfold Index. by rewrite list_lookup_insert_eq.
    + destruct (decide (id ∈ l)) as [Hin|Hnin]; [by apply Hset|].
      apply elem_of_cons in H as [->|H]; [|done].
      destruct (Hframe a Hnin) as [_ E]. rewrite E.
      unfold upper, setUpper, setLower, component. cbn [box_hi].
      unfold Index. by rewrite list_lookup_insert_eq.
Qed.

(** X15: for a domain of more than one dimension and a pencil direction
    of the domain, the pencil box is one cell thick in every other
    direction: there both corners are the lower corner of the bounding
    box (default pencil) or the entry of the pencil index for that
    direction, counted without the pencil direction; along the pencil
    direction the box spans the bounding box. *)
Theorem pencil_box_single_index (dim : Dimension) bb pd default_pencil pencil_index :
  (1 < dim)%nat -> (pd < dim)%nat ->
  length (box_lo bb) = dim -> length (box_hi bb) = dim ->
  (dim - 1 <= length pencil_index)%nat ->
  exists pb,
    pencil_box_of dim bb pd default_pencil pencil_index = Ok pb
    /\ box_dim pb = box_dim bb /\ getLocalId pb = getLocalId bb
    /\ lower pb pd = lower bb pd /\ upper pb pd = upper bb pd
    /\ forall id, (id < dim)%nat -> id <> pd ->
         lower pb id = (if default_pencil then lower bb id
                        else component pencil_index (pencil_slot pd id))
         /\ upper pb id = lower pb id.
Proof.
  intros Hdim Hpd Hlo Hhi Hidx. unfold pencil_box_of.
  destruct (Nat.ltb_spec 1 dim) as [_|]; [|lia].
  rewrite copy_pencil_index by (rewrite ?length_replicate; lia).
  rewrite drop_replicate, Nat.sub_diag, app_nil_r. cbn [mbind result_bind bind].
  set (tmp1 := take (dim - 1) pencil_index).
  set (h := fun id => if default_pencil then lower bb id
                      else component pencil_index (pencil_slot pd id)).
  set (others := filter (fun id => id <> pd) (seq 0 dim)).
  assert (length tmp1 = (dim - 1)%nat) as Hlen1
    by (unfold tmp1; rewrite length_take; lia).
  assert (exists tmp2,
    (if default_pencil then
       st ← for_each (other_direction pd
                (fun indx id tmp => vector_set tmp indx (lower bb id)))
              (seq 0 dim) (tmp1, 0%nat);
       Ok st.1
     else Ok tmp1) = Ok tmp2
    /\ forall id, id ∈ others -> tmp2 !! pencil_slot pd id = Some (h id))
    as (tmp2 & -> & Htmp2).
  { destruct default_pencil.
    - pose proof (other_direction_seq pd
        (fun indx id tmp => vector_set tmp indx (lower bb id)) 0 dim tmp1) as E.
      change (pencil_slot pd 0) with 0%nat in E. rewrite E. clear E.
      destruct (fill_slots (pencil_slot pd) (lower bb) others tmp1)
        as (tmp2 & Hrun & _ & Hset).
      { intros id Hid. apply other_directions in Hid as [? ?].
        rewrite Hlen1. by apply pencil_slot_lt. }
      fold others. rewrite Hrun. exists tmp2. split; [done|].
      intros id Hid. apply Hset; [done|].
      intros id' Hid' Heq. apply other_directions in Hid as [? ?].
      apply other_directions in Hid' as [? ?].
      by apply (pencil_slot_inj pd).
    - exists tmp1. split; [done|]. intros id Hid.
      apply other_directions in Hid as [? ?].
      assert (pencil_slot pd id < dim - 1)%nat by by apply pencil_slot_lt.
      unfold tmp1, h, component. rewrite lookup_take_lt by done.
      destruct (lookup_lt_is_Some_2 pencil_index (pencil_slot pd id)) as [x ->]; [lia|].
      done. }
  cbn [mbind result_bind bind].
  pose proof (other_direction_seq pd
    (fun indx id pencil_box => x ← vector_at tmp2 indx;
       Ok (setUpper id x (setLower id x pencil_box))) 0 dim bb) as E.
  change (pencil_slot pd 0) with 0%nat in E. rewrite E. clear E.
  destruct (set_pencil_corners (pencil_slot pd) h tmp2 others bb)
    as (pb & Hrun & _ & _ & Hd & Hli & Hframe & Hset); [done| |].
  { intros id Hid. apply other_directions in Hid as [? ?]. lia. }
  fold others. rewrite Hrun. exists pb. split; [done|].
  split; [done|]. split; [done|].
  destruct (Hframe pd) as [? ?].
  { intros Hin. apply other_directions in Hin as [_ ?]. done. }
  do 2 (split; [done|]).
  intros id Hid Hne. destruct (Hset id) as [E1 E2]; [by apply other_directions|].
  by rewrite E1, E2.
Qed.

Lemma pencil_box_single_index_witness :
  exists pb,
    pencil_box_of 3
      {| box_dim := 3; box_lo := [0; 10; 20]; box_hi := [7; 17; 27];
         box_local_id := 0 |} 1 false [4; 25]
    = Ok pb
    /\ box_dim pb = 3%nat /\ getLocalId pb = 0
    /\ lower pb 1 = 10 /\ upper pb 1 = 17
    /\ forall id, (id < 3)%nat -> id <> 1%nat ->
         lower pb id = component [4; 25] (pencil_slot 1 id)
         /\ upper pb id = lower pb id.
Proof.
  apply (pencil_box_single_index 3
           {| box_dim := 3; box_lo := [0; 10; 20]; box_hi := [7; 17; 27];
              box_local_id := 0 |} 1 false [4; 25]);
    [lia | lia | reflexivity | reflexivity | simpl; lia].
Defined.

Lemma for_each_only_error {A S} (body : A -> S -> result S) l s e0 e :
  (forall a s e, body a s = Err e -> e = e0) ->
  for_each body l s = Err e -> e = e0.
Proof.
  intros Hbody H. apply for_each_Err in H as (a & s0 & _ & H). by eapply Hbody.
Qed.

Lemma other_direction_none {St} pd (body : nat -> nat -> St -> result St) a n (s : St) :
  (a + n <= pd)%nat ->
  for_each (other_direction pd body) (seq a n) (s, a)
  = s' ← for_each (fun id s => body id id s) (seq a n) s; Ok (s', (a + n)%nat).
Proof.
  revert a s. induction n as [|n IH]; intros a s Hle; simpl.
  - by rewrite Nat.add_0_r.
  - unfold other_direction at 1. simpl.
    destruct (decide (a = pd)) as [->|_]; [lia|].
    destruct (body a a s) as [s1|e]; simpl; [|done].
    rewrite IH by lia. by replace (S a + n)%nat with (a + S n)%nat by lia.
Qed.

Lemma vector_set_Err v i x e : vector_set v i x = Err e -> e = UndefinedBehavior.
Proof. unfold vector_set. destruct (i <? length v)%nat; congruence. Qed.

Lemma vector_at_Err {A} (v : list A) i e : vector_at v i = Err e -> e = UndefinedBehavior.
Proof. unfold vector_at, deref. destruct (v !! i); congruence. Qed.

(** X16: the pencil direction is not checked against the dimension: for
    a domain of more than one dimension and a pencil direction that is
    not one of its directions, no direction is skipped and [tmp] is
    indexed one past its end, whatever the other arguments are. *)
Theorem pencil_direction_out_of_range (dim : Dimension) bb pd default_pencil pencil_index :
  (1 < dim)%nat -> (dim <= pd)%nat ->
  pencil_box_of dim bb pd default_pencil pencil_index = Err UndefinedBehavior.
Proof.
  intros Hdim Hpd. unfold pencil_box_of.
  destruct (Nat.ltb_spec 1 dim) as [_|]; [|lia].
  destruct (for_each _ (seq 0 (dim - 1)) (replicate (dim - 1) 0)) as [tmp1|e] eqn:E1.
  2:{ apply for_each_only_error with (e0 := UndefinedBehavior) in E1 as ->; [done|].
      intros a s e0. destruct (vector_at pencil_index a) as [x|e'] eqn:Ex; simpl.
      - apply vector_set_Err.
      - intros [= <-]. by apply vector_at_Err in Ex. }
  assert (length tmp1 = (dim - 1)%nat) as Hlen1.
  { eapply (for_each_invariant _ (fun t => length t = (dim - 1)%nat)) in E1;
      [done| |by rewrite length_replicate].
    intros a s s' _ Hs Hl. apply mbind_Ok in Hs as (x & _ & Hs).
    apply vector_set_Ok in Hs as [_ ->]. by rewrite length_insert. }
  cbn [mbind result_bind bind].
  assert (seq 0 dim = seq 0 (dim - 1) ++ [(dim - 1)%nat]) as Hseq.
  { replace dim with (S (dim - 1)) at 1 by lia. by rewrite seq_S. }
  assert (forall tmp : list Z, length tmp = (dim - 1)%nat ->
    for_each (other_direction pd
        (fun indx id pencil_box => x ← vector_at tmp indx;
           Ok (setUpper id x (setLower id x pencil_box))))
      (seq 0 dim) (bb, 0%nat) = Err UndefinedBehavior) as Hlast.
  { intros tmp Hlen. rewrite other_direction_none by lia.
    rewrite Hseq, for_each_app.
    destruct (for_each _ (seq 0 (dim - 1)) bb) as [pb|e] eqn:E3; simpl.
    - unfold vector_at. rewrite lookup_ge_None_2 by lia. done.
    - apply for_each_only_error with (e0 := UndefinedBehavior) in E3 as ->; [done|].
      intros a s e'. destruct (vector_at tmp a) as [x|e''] eqn:Ex; simpl; [done|].
      intros [= <-]. by apply vector_at_Err in Ex. }
  destruct default_pencil.
  - rewrite other_direction_none by lia. rewrite Hseq, for_each_app.
    destruct (for_each _ (seq 0 (dim - 1)) tmp1) as [tmp2|e] eqn:E2; simpl.
    + assert (length tmp2 = (dim - 1)%nat) as Hlen2.
      { eapply (for_each_invariant _ (fun t => length t = (dim - 1)%nat)) in E2;
          [done| |done].
        intros a s s' _ Hs Hl. apply vector_set_Ok in Hs as [_ ->].
        by rewrite length_insert. }
      unfold vector_set. destruct (Nat.ltb_spec (dim - 1) (length tmp2)); [lia|done].
    + apply for_each_only_error with (e0 := UndefinedBehavior) in E2 as ->; [done|].
      intros a s e'. apply vector_set_Err.
  - cbn [mbind result_bind bind]. by rewrite Hlast.
Qed.

Lemma pencil_direction_out_of_range_witness :
  pencil_box_of 2
    {| box_dim := 2; box_lo := [0; 0]; box_hi := [7; 7]; box_local_id := 0 |}
    2 true [0]
  = Err UndefinedBehavior.
Proof.
  apply (pencil_direction_out_of_range 2
           {| box_dim := 2; box_lo := [0; 0]; box_hi := [7; 7];
              box_local_id := 0 |} 2 true [0]); lia.
Defined.

End Pencil.

(** ** The name of the dump file *)

Section DumpFileName.
Import EulerMain.

Lemma pow10_step (k : nat) : 10 ^ Z.of_nat (S k) = 10 * 10 ^ Z.of_nat k.
Proof. rewrite Nat2Z.inj_succ, Z.pow_succ_r by lia. done. Qed.

Lemma pow10_pos (k : nat) : 0 < 10 ^ Z.of_nat k.
Proof. apply Z.pow_pos_nonneg; lia. Qed.

Lemma pow10_mono (j k : nat) : (j <= k)%nat -> 10 ^ Z.of_nat j <= 10 ^ Z.of_nat k.
Proof. intros H. apply Z.pow_le_mono_r; lia. Qed.

(** The digits of a number from [10 ^ k] to below [10 ^ (k + 1)]:
    there are [k + 1] of them. *)
Lemma decimal_digits_length fuel : forall (k : nat) n acc,
  (k < fuel)%nat -> 0 <= n < 10 ^ Z.of_nat (S k) ->
  (k = 0%nat \/ 10 ^ Z.of_nat k <= n) ->
  length (decimal_digits fuel n acc) = (S k + length acc)%nat.
Proof.
  induction fuel as [|fuel IH]; intros k n acc Hk Hn Hlow; [lia|].
  cbn [decimal_digits].
  pose proof (Z.div_mod n 10 ltac:(lia)) as Hdm.
  pose proof (Z.mod_pos_bound n 10 ltac:(lia)) as Hmod.
  destruct (Z.eqb_spec (n / 10) 0) as [Hq|Hq].
  - destruct Hlow as [->|Hlow]; [done|].
    destruct k as [|k]; [done|].
    pose proof (pow10_mono 1 (S k) ltac:(lia)) as Hp.
    change (10 ^ Z.of_nat 1) with 10 in Hp. lia.
  - destruct k as [|k].
    { change (10 ^ Z.of_nat 1) with 10 in Hn. lia. }
    rewrite (IH k) ; [simpl; lia|lia| |].
    + rewrite pow10_step in Hn. split; [apply Z.div_pos; lia|].
      apply Z.div_lt_upper_bound; lia.
    + destruct Hlow as [?|Hlow]; [lia|]. rewrite pow10_step in Hlow.
      destruct k as [|k]; [by left|right].
      apply Z.div_le_lower_bound; lia.
Qed.

Lemma digit_count (m : nat) : forall n, 0 <= n < 10 ^ Z.of_nat (S m) ->
  exists k : nat, (k <= m)%nat /\ n < 10 ^ Z.of_nat (S k)
                  /\ (k = 0%nat \/ 10 ^ Z.of_nat k <= n).
Proof.
  induction m as [|m IH]; intros n Hn.
  - exists 0%nat. split; [lia|]. split; [lia|by left].
  - destruct (Z_lt_dec n (10 ^ Z.of_nat (S m))) as [Hlt|Hge].
    + destruct (IH n) as (k & ? & ? & ?); [lia|]. exists k. split; [lia|done].
    + exists (S m). split; [lia|]. split; [lia|right; lia].
Qed.

(** The number of digits [decimal] prints, for a number of at most ten
    digits. *)
Lemma decimal_length_le n (j : nat) :
  0 <= n < 10 ^ 10 -> (1 <= j)%nat ->
  (length (decimal n) <= j)%nat <-> n < 10 ^ Z.of_nat j.
Proof.
  intros Hn Hj. destruct (digit_count 9 n) as (k & Hk & Hlt & Hlow); [done|].
  unfold decimal. rewrite (decimal_digits_length 10 k) by (done || lia). simpl.
  split; intros H.
  - pose proof (pow10_mono (S k) j ltac:(lia)). lia.
  - destruct (decide (S k <= j)%nat) as [|Hgt]; [lia|].
    destruct Hlow as [->|Hlow]; [lia|].
    pose proof (pow10_mono j k ltac:(lia)). lia.
Qed.

Lemma decimal_length_pos n : 0 <= n < 10 ^ 10 -> (1 <= length (decimal n) <= 10)%nat.
Proof.
  intros Hn. destruct (digit_count 9 n) as (k & Hk & Hlt & Hlow); [done|].
  unfold decimal. rewrite (decimal_digits_length 10 k) by (done || lia). simpl. lia.
Qed.

Lemma format_d_length width n :
  length (format_d width n)
  = if n <? 0 then (1 + Nat.max (width - 1) (length (decimal (- n))))%nat
    else Nat.max width (length (decimal n)).
Proof.
  unfold format_d. destruct (n <? 0); cbn [length];
    rewrite length_app, length_replicate; lia.
Qed.

Lemma snprintf_complete size formatted :
  snprintf size formatted = formatted <-> (length formatted <= size - 1)%nat.
Proof.
  unfold snprintf. split; intros H.
  - apply (f_equal length) in H. rewrite length_take in H. lia.
  - by apply take_ge.
Qed.

(** X17: in a parallel run the buffer of [dump_filename.length() + 16]
    characters holds the whole file name exactly when the step number
    has at most four digits and the rank at most five; beyond that the
    name is cut short. *)
Theorem dump_file_name_parallel mpi_size rank dirname filename ext :
  1 < mpi_size -> 0 <= ext <= int_max -> 0 <= rank <= int_max ->
  dump_file_name mpi_size rank dirname filename ext
    = parallel_name (dump_filename dirname filename) ext rank
  <-> ext <= 9999 /\ rank <= 99999.
Proof.
  intros Hsize Hext Hrank. unfold dump_file_name, int_max in *.
  destruct (Z.ltb_spec 1 mpi_size); [|lia].
  rewrite snprintf_complete. unfold parallel_name.
  rewrite !length_app, !format_d_length. cbn [length].
  destruct (Z.ltb_spec ext 0); [lia|]. destruct (Z.ltb_spec rank 0); [lia|].
  pose proof (decimal_length_le ext 4 ltac:(lia) ltac:(lia)) as He.
  pose proof (decimal_length_le rank 5 ltac:(lia) ltac:(lia)) as Hr.
  change (10 ^ Z.of_nat 4) with 10000 in He.
  change (10 ^ Z.of_nat 5) with 100000 in Hr. lia.
Qed.

Lemma dump_file_name_parallel_witness :
  dump_file_name 16 12 [] ["e"; "u"]%char 37
    = parallel_name (dump_filename [] ["e"; "u"]%char) 37 12
  <-> 37 <= 9999 /\ 12 <= 99999.
Proof.
  apply (dump_file_name_parallel 16 12 [] ["e"; "u"]%char 37);
    unfold int_max; lia.
Defined.

(** X18: in a serial run the buffer holds the whole file name for
    every step number above minus ten to the ninth, so for every
    non-negative one. *)
Theorem dump_file_name_serial mpi_size rank dirname filename ext :
  mpi_size <= 1 -> in_int ext ->
  dump_file_name mpi_size rank dirname filename ext
    = serial_name (dump_filename dirname filename) ext
  <-> -1000000000 < ext.
Proof.
  intros Hsize Hext. unfold dump_file_name, in_int, int_min, int_max in *.
  destruct (Z.ltb_spec 1 mpi_size); [lia|].
  rewrite snprintf_complete. unfold serial_name.
  rewrite !length_app, !format_d_length. cbn [length].
  destruct (Z.ltb_spec ext 0).
  - pose proof (decimal_length_le (- ext) 9 ltac:(lia) ltac:(lia)) as He.
    change (10 ^ Z.of_nat 9) with 1000000000 in He. lia.
  - pose proof (decimal_length_pos ext ltac:(lia)). lia.
Qed.

Lemma dump_file_name_serial_witness :
  dump_file_name 1 0 [] ["e"; "u"]%char 2147483647
    = serial_name (dump_filename [] ["e"; "u"]%char) 2147483647
  <-> -1000000000 < 2147483647.
Proof.
  apply (dump_file_name_serial 1 0 [] ["e"; "u"]%char 2147483647);
    unfold in_int, int_min, int_max; lia.
Defined.

End DumpFileName.
